(** * Blob detection and suppression stages of blob_detection_functions.py

    A shallow embedding of the detector's threshold resolution, the two
    greedy suppressors and the three filters, with the properties the
    design document states about them.

    Modelling conventions.
    - A float64 that can only be finite in the code paths below (blob
      coordinates, voxel values, numeric parameters) is a rational [Q];
      arithmetic on it is exact, so rounding error and overflow are not
      part of the model.
    - A float64 that the code itself can turn into NaN or an infinity
      (intensities, thresholds, ratios) is an [f64]: a rational, +inf,
      -inf or NaN, with the IEEE rules for the special values and an
      unsigned zero.
    - [np.argsort] is called with its default [kind], for which numpy
      promises a sorted permutation and nothing about equal keys; it is
      the method of the class [ArgSort].
    - [skimage.draw.line_nd], [scipy.ndimage.binary_erosion] and
      [skimage.feature.blob_log] are library calls; the stages take them
      as section variables. *)

From Stdlib Require Import ZArith QArith Qabs Qround Qminmax Lia Lqa Sorted.
From Stdlib Require Import String Ascii.
From stdpp Require Import base list sorting strings pretty gmap.

Local Open Scope Z_scope.

(** ** Numbers *)

Inductive f64 : Type :=
| Fin (q : Q)
| PInf
| NInf
| NaN.

Definition Qltb (a b : Q) : bool :=
  (Qnum a * QDen b <? Qnum b * QDen a)%Z.

Definition Qis_zero (a : Q) : bool := (Qnum a =? 0)%Z.

Definition is_nan (a : f64) : bool :=
  match a with NaN => true | _ => false end.

Definition is_finite (a : f64) : bool :=
  match a with Fin _ => true | _ => false end.

(** unary minus *)
Definition fneg (a : f64) : f64 :=
  match a with
  | Fin q => Fin (- q)
  | PInf => NInf
  | NInf => PInf
  | NaN => NaN
  end.

Definition fadd (a b : f64) : f64 :=
  match a, b with
  | NaN, _ | _, NaN => NaN
  | Fin p, Fin q => Fin (p + q)
  | PInf, NInf | NInf, PInf => NaN
  | PInf, _ | _, PInf => PInf
  | NInf, _ | _, NInf => NInf
  end.

(** the infinity with the sign of [q], NaN for zero *)
Definition signed_inf (q : Q) : f64 :=
  if Qis_zero q then NaN else if Qltb 0 q then PInf else NInf.

Definition fmul (a b : f64) : f64 :=
  match a, b with
  | NaN, _ | _, NaN => NaN
  | Fin p, Fin q => Fin (p * q)
  | Fin p, PInf | PInf, Fin p => signed_inf p
  | Fin p, NInf | NInf, Fin p => signed_inf (- p)
  | PInf, PInf | NInf, NInf => PInf
  | PInf, NInf | NInf, PInf => NInf
  end.

(** true division of numpy scalars: a zero divisor gives an infinity or
    NaN (with a RuntimeWarning), it does not raise *)
Definition fdiv (a b : f64) : f64 :=
  match a, b with
  | NaN, _ | _, NaN => NaN
  | Fin p, Fin q => if Qis_zero q then signed_inf p else Fin (p / q)
  | Fin _, _ => Fin 0
  | PInf, Fin q => if Qltb q 0 then NInf else PInf
  | NInf, Fin q => if Qltb q 0 then PInf else NInf
  | _, _ => NaN
  end.

(** [a < b]; every comparison with NaN is false *)
Definition flt (a b : f64) : bool :=
  match a, b with
  | NaN, _ | _, NaN => false
  | Fin p, Fin q => Qltb p q
  | PInf, _ | _, NInf => false
  | NInf, _ | _, PInf => true
  end.

Definition fgt (a b : f64) : bool := flt b a.

(** [np.round(v).astype(int)]: round half to even *)
Definition np_round (q : Q) : Z :=
  let f := Qfloor q in
  let r := (q - inject_Z f)%Q in
  if Qltb r (1 # 2) then f
  else if Qltb (1 # 2) r then f + 1
  else if Z.even f then f else f + 1.

(** [int(v)]: truncation toward zero *)
Definition py_int (q : Q) : Z := Z.quot (Qnum q) (QDen q).

(** ** Exceptions *)

Inductive exn : Type := ValueError | IndexError.

Inductive result (A : Type) : Type :=
| Ok (a : A)
| Raise (e : exn).
Arguments Ok {A} a.
Arguments Raise {A} e.

(** ** Dense 3D arrays *)

Record Volume : Type := mkVolume {
  shape0 : Z;
  shape1 : Z;
  shape2 : Z;
  voxel : Z -> Z -> Z -> Q
}.

Record Mask : Type := mkMask {
  mshape0 : Z;
  mshape1 : Z;
  mshape2 : Z;
  mvoxel : Z -> Z -> Z -> bool
}.

(** [range(a, b)] *)
Definition zrange (a b : Z) : list Z :=
  map (fun k => a + Z.of_nat k) (seq 0 (Z.to_nat (b - a))).

(** start or stop of a slice [s:e] on an axis of length [n]: a negative
    bound counts from the end, and the result is clipped to [0, n] *)
Definition slice_bound (n i : Z) : Z :=
  if i <? 0 then Z.max 0 (i + n) else Z.min i n.

Definition slice_range (n s e : Z) : list Z :=
  zrange (slice_bound n s) (slice_bound n e).

(** [image[z, ys:ye, xs:xe]], flattened; [z] is a valid index *)
Definition patch2d (image : Volume) (z ys ye xs xe : Z) : list Q :=
  flat_map (fun y => map (fun x => voxel image z y x)
                         (slice_range (shape2 image) xs xe))
           (slice_range (shape1 image) ys ye).

(** [image[zs:ze, ys:ye, xs:xe]], flattened *)
Definition patch3d (image : Volume) (zs ze ys ye xs xe : Z) : list Q :=
  flat_map (fun z => patch2d image z ys ye xs xe)
           (slice_range (shape0 image) zs ze).

Definition Qsum (l : list Q) : Q := fold_right Qplus 0%Q l.

(** [arr.mean()]: NaN on an empty array *)
Definition np_mean (l : list Q) : f64 :=
  match l with
  | [] => NaN
  | _ => Fin (Qsum l / inject_Z (Z.of_nat (length l)))
  end.

(** ** Blob records: one row (z, y, x, sigma, intensity) *)

Record blob : Type := mkBlob {
  blob_z : Q;
  blob_y : Q;
  blob_x : Q;
  blob_sigma : Q;
  blob_intensity : f64
}.

(** ** Sorting *)

(** numpy's order on float keys: ascending, NaN after everything else *)
Definition key_le (a b : f64) : bool :=
  match a, b with
  | _, NaN => true
  | NaN, _ => false
  | _, _ => negb (flt b a)
  end.

Definition key_at (keys : list f64) (i : nat) : f64 :=
  default NaN (keys !! i).

(** What [np.argsort(keys)] with the default [kind] guarantees: the
    positions of [keys], each once, with the keys they select in numpy's
    order.  The order among equal keys is left open. *)
Class ArgSort : Type := {
  argsort : list f64 -> list nat;
  argsort_perm : forall keys, argsort keys ≡ₚ seq 0 (length keys);
  argsort_sorted : forall keys,
    StronglySorted (fun i j => key_le (key_at keys i) (key_at keys j) = true)
                   (argsort keys)
}.

(** [arr[indices]] for an index array; [argsort] only yields valid
    positions *)
Definition fancy_index {A} (arr : list A) (indices : list nat) : list A :=
  omap (fun i => arr !! i) indices.

(** [arr[mask]] for a boolean mask *)
Fixpoint boolean_index {A} (arr : list A) (mask : list bool) : list A :=
  match arr, mask with
  | a :: arr', k :: mask' =>
      if k then a :: boolean_index arr' mask' else boolean_index arr' mask'
  | _, _ => []
  end.

(** ** ProximitySuppressor *)

Section Proximity.
Variables radius_xy z_window : Q.

(** the two nested tests of the inner loop, for the outer blob [b0]
    and the later blob [b1] *)
Definition in_cylinder (b0 b1 : blob) : bool :=
  Qle_bool (Qabs (blob_z b1 - blob_z b0)) z_window
  && Qle_bool ((blob_y b1 - blob_y b0) ^ 2 + (blob_x b1 - blob_x b0) ^ 2)
              (radius_xy ^ 2).

Variable blobs_sorted : list blob.

(** one iteration of [for j in range(i + 1, len(blobs_sorted))] *)
Definition proximity_visit (b0 : blob) (keep_mask : list bool) (j : nat)
  : list bool :=
  match keep_mask !! j, blobs_sorted !! j with
  | Some true, Some b1 =>
      if in_cylinder b0 b1 then <[j := false]> keep_mask else keep_mask
  | _, _ => keep_mask
  end.

Fixpoint proximity_inner (b0 : blob) (js : list nat) (keep_mask : list bool)
  : list bool :=
  match js with
  | [] => keep_mask
  | j :: js' => proximity_inner b0 js' (proximity_visit b0 keep_mask j)
  end.

(** one iteration of [for i, blob in enumerate(blobs_sorted)] *)
Definition proximity_step (keep_mask : list bool) (i : nat) : list bool :=
  match keep_mask !! i, blobs_sorted !! i with
  | Some true, Some b0 =>
      proximity_inner b0
        (seq (S i) (length blobs_sorted - S i)) keep_mask
  | _, _ => keep_mask
  end.

Fixpoint proximity_outer (idx : list nat) (keep_mask : list bool)
  : list bool :=
  match idx with
  | [] => keep_mask
  | i :: idx' => proximity_outer idx' (proximity_step keep_mask i)
  end.
End Proximity.

Definition sort_key (b : blob) : f64 := fneg (blob_intensity b).

Definition sort_by_intensity `{ArgSort} (blobs : list blob) : list blob :=
  fancy_index blobs (argsort (map sort_key blobs)).

Definition suppress_close_blobs_by_intensity `{ArgSort}
    (blobs : list blob) (radius_xy z_window : Q) : list blob :=
  if (length blobs =? 0)%nat then blobs
  else
    let blobs_sorted := sort_by_intensity blobs in
    let keep_mask := replicate (length blobs_sorted) true in
    boolean_index blobs_sorted
      (proximity_outer radius_xy z_window blobs_sorted
         (seq 0 (length blobs_sorted)) keep_mask).

(** ** BridgeSuppressor *)

Definition point : Type := (Z * Z * Z)%type.

(** an integer index on an axis of length [n]: negative indices count
    from the end, anything else out of range is an IndexError *)
Definition wrap_index (n i : Z) : option Z :=
  if (0 <=? i) && (i <? n) then Some i
  else if (- n <=? i) && (i <? 0) then Some (i + n)
  else None.

Definition getitem (image : Volume) (p : point) : option Q :=
  let '(z, y, x) := p in
  match wrap_index (shape0 image) z,
        wrap_index (shape1 image) y,
        wrap_index (shape2 image) x with
  | Some z', Some y', Some x' => Some (voxel image z' y' x')
  | _, _, _ => None
  end.

(** [image[tuple(coords)]] *)
Definition sample (image : Volume) (coords : list point) : result (list Q) :=
  match mapM (getitem image) coords with
  | Some values => Ok values
  | None => Raise IndexError
  end.

(** [np.min(values)]: raises on an empty array *)
Definition np_min (values : list Q) : result Q :=
  match values with
  | [] => Raise ValueError
  | v :: vs => Ok (fold_left Qmin vs v)
  end.

Definition blob_voxel_int (b : blob) : point :=
  (py_int (blob_z b), py_int (blob_y b), py_int (blob_x b)).

Section Bridge.
Variable line_nd : point -> point -> list point.
Variable image : Volume.
Variables radius_xy z_window dip_threshold : Q.
Variable blobs_sorted : list blob.

Definition avg_peak (intensity1 intensity2 : f64) : f64 :=
  fdiv (fadd intensity1 intensity2) (Fin 2).

Definition dip_ratio (min_val : Q) (intensity1 intensity2 : f64) : f64 :=
  fdiv (Fin min_val) (avg_peak intensity1 intensity2).

(** minimum of the volume along the rasterised line between two blobs *)
Definition bridge_min (blob1 blob2 : blob) : result Q :=
  match sample image (line_nd (blob_voxel_int blob1) (blob_voxel_int blob2)) with
  | Ok values => np_min values
  | Raise e => Raise e
  end.

(** [for j in ...] of the pair test, for the outer index [i] and its
    blob; the [break] ends the recursion *)
Fixpoint bridge_inner (i : nat) (blob1 : blob) (js : list nat)
    (keep_mask : list bool) : result (list bool) :=
  match js with
  | [] => Ok keep_mask
  | j :: js' =>
      match keep_mask !! j, blobs_sorted !! j with
      | Some true, Some blob2 =>
          if Qltb z_window (Qabs (blob_z blob2 - blob_z blob1))
          then bridge_inner i blob1 js' keep_mask
          else if Qltb (radius_xy ^ 2)
                       ((blob_y blob2 - blob_y blob1) ^ 2
                        + (blob_x blob2 - blob_x blob1) ^ 2)
          then bridge_inner i blob1 js' keep_mask
          else
            match bridge_min blob1 blob2 with
            | Raise e => Raise e
            | Ok min_val =>
                if fgt (dip_ratio min_val (blob_intensity blob1)
                                  (blob_intensity blob2))
                       (Fin dip_threshold)
                then
                  if fgt (blob_intensity blob1) (blob_intensity blob2)
                  then bridge_inner i blob1 js' (<[j := false]> keep_mask)
                  else Ok (<[i := false]> keep_mask)
                else bridge_inner i blob1 js' keep_mask
            end
      | _, _ => bridge_inner i blob1 js' keep_mask
      end
  end.

Definition bridge_step (keep_mask : list bool) (i : nat)
  : result (list bool) :=
  match keep_mask !! i, blobs_sorted !! i with
  | Some true, Some blob1 =>
      bridge_inner i blob1
        (seq (S i) (length blobs_sorted - S i)) keep_mask
  | _, _ => Ok keep_mask
  end.

Fixpoint bridge_outer (idx : list nat) (keep_mask : list bool)
  : result (list bool) :=
  match idx with
  | [] => Ok keep_mask
  | i :: idx' =>
      match bridge_step keep_mask i with
      | Ok keep_mask' => bridge_outer idx' keep_mask'
      | Raise e => Raise e
      end
  end.
End Bridge.

Definition suppress_blobs_by_bridge_intensity `{ArgSort}
    (line_nd : point -> point -> list point)
    (blobs : list blob) (image : Volume)
    (radius_xy z_window dip_threshold : Q) : result (list blob) :=
  if (length blobs =? 0)%nat then Ok blobs
  else
    let blobs_sorted := sort_by_intensity blobs in
    let keep_mask := replicate (length blobs_sorted) true in
    match bridge_outer line_nd image radius_xy z_window dip_threshold
            blobs_sorted (seq 0 (length blobs_sorted)) keep_mask with
    | Ok keep_mask' => Ok (boolean_index blobs_sorted keep_mask')
    | Raise e => Raise e
    end.

(** ** Filters *)

Definition blob_voxel (b : blob) : point :=
  (np_round (blob_z b), np_round (blob_y b), np_round (blob_x b)).

(** the bounds test of the local-contrast filter *)
Definition region_in_bounds (image : Volume) (region_size : Z) (p : point)
  : bool :=
  let '(z, y, x) := p in
  (region_size <=? y) && (y <? shape1 image - region_size)
  && ((region_size <=? x) && (x <? shape2 image - region_size))
  && ((0 <=? z) && (z <? shape0 image)).

Definition local_mean (image : Volume) (region_size : Z) (p : point) : f64 :=
  let '(z, y, x) := p in
  np_mean (patch2d image z (y - region_size) (y + region_size + 1)
                           (x - region_size) (x + region_size + 1)).

Definition local_intensity_keeps (image : Volume) (region_size : Z)
    (ratio_threshold : Q) (b : blob) : bool :=
  if region_in_bounds image region_size (blob_voxel b)
  then fgt (blob_intensity b)
           (fmul (Fin ratio_threshold)
                 (local_mean image region_size (blob_voxel b)))
  else false.

Definition filter_blobs_by_local_intensity (image : Volume)
    (blobs : list blob) (region_size : Z) (ratio_threshold : Q)
  : list blob :=
  List.filter (local_intensity_keeps image region_size ratio_threshold) blobs.

Definition sharpness_keeps (image : Volume) (drop_factor : Q) (b : blob)
  : bool :=
  let '(z, y, x) := blob_voxel b in
  if negb ((0 <? z) && (z <? shape0 image - 1)
           && ((0 <? y) && (y <? shape1 image - 1))
           && ((0 <? x) && (x <? shape2 image - 1)))
  then false
  else
    let center_intensity := voxel image z y x in
    let local_cube :=
      patch3d image (z - 1) (z + 2) (y - 1) (y + 2) (x - 1) (x + 2) in
    fgt (Fin center_intensity) (fmul (Fin drop_factor) (np_mean local_cube)).

Definition filter_blobs_by_sharpness (blobs : list blob) (image : Volume)
    (drop_factor : Q) : list blob :=
  List.filter (sharpness_keeps image drop_factor) blobs.

Section MaskBoundary.
(** [binary_erosion(mask, iterations=n)], as the voxels of an array of
    the shape of [mask] *)
Variable binary_erosion : Mask -> Z -> Z -> Z -> Z -> bool.

Definition erode (original_mask : Mask) (erosion_iterations : Z) : Mask :=
  mkMask (mshape0 original_mask) (mshape1 original_mask)
         (mshape2 original_mask)
         (binary_erosion original_mask erosion_iterations).

Definition mask_difference (original_mask eroded_mask : Mask) (p : point)
  : bool :=
  let '(z, y, x) := p in
  mvoxel original_mask z y x && negb (mvoxel eroded_mask z y x).

Definition mask_in_bounds (m : Mask) (p : point) : bool :=
  let '(z, y, x) := p in
  (0 <=? z) && (z <? mshape0 m)
  && ((0 <=? y) && (y <? mshape1 m))
  && ((0 <=? x) && (x <? mshape2 m)).

Definition eroded_mask_keeps (original_mask eroded_mask : Mask) (b : blob)
  : bool :=
  mask_in_bounds eroded_mask (blob_voxel b)
  && negb (mask_difference original_mask eroded_mask (blob_voxel b)).

Definition filter_blobs_outside_eroded_mask (blobs : list blob)
    (original_mask : Mask) (erosion_iterations : Z) : list blob * Mask :=
  let eroded_mask := erode original_mask erosion_iterations in
  (List.filter (eroded_mask_keeps original_mask eroded_mask) blobs,
   eroded_mask).
End MaskBoundary.

(** ** Intensity measurement *)

(** a row (z, y, x, sigma) before its intensity column is appended *)
Record candidate : Type := mkCandidate {
  cand_z : Q;
  cand_y : Q;
  cand_x : Q;
  cand_sigma : Q
}.

Definition cand_voxel (c : candidate) : point :=
  (np_round (cand_z c), np_round (cand_y c), np_round (cand_x c)).

(** one row of [np.hstack([blobs, blob_intensities[:, np.newaxis]])] *)
Definition hstack_row (c : candidate) (mean_intensity : f64) : blob :=
  mkBlob (cand_z c) (cand_y c) (cand_x c) (cand_sigma c) mean_intensity.

Definition patch_in_bounds (image : Volume) (p : point) : bool :=
  let '(z, y, x) := p in
  (1 <=? y) && (y <? shape1 image - 1)
  && ((1 <=? x) && (x <? shape2 image - 1))
  && ((0 <=? z) && (z <? shape0 image)).

Definition patch_intensity (image : Volume) (c : candidate) : f64 :=
  let '(z, y, x) := cand_voxel c in
  if patch_in_bounds image (z, y, x)
  then np_mean (patch2d image z (y - 1) (y + 2) (x - 1) (x + 2))
  else NaN.

Definition detect_blob_intensities (image : Volume) (blobs : list candidate)
  : list blob :=
  let blob_intensities := map (patch_intensity image) blobs in
  zip_with hstack_row blobs blob_intensities.

(** ** Detector *)

Fixpoint Qinsert (v : Q) (l : list Q) : list Q :=
  match l with
  | [] => [v]
  | w :: l' => if Qle_bool v w then v :: l else w :: Qinsert v l'
  end.

Definition Qsort (l : list Q) : list Q := fold_right Qinsert [] l.

Definition np_max (values : list Q) : result Q :=
  match values with
  | [] => Raise ValueError
  | v :: vs => Ok (fold_left Qmax vs v)
  end.

(** [np.percentile(values, q)] with the default linear interpolation;
    of an empty array it is NaN, and [image.max()] raises right after *)
Definition np_percentile (values : list Q) (q : Q) : result f64 :=
  if negb (Qle_bool 0 q && Qle_bool q 100) then Raise ValueError
  else
    let a := Qsort values in
    match a with
    | [] => Ok NaN
    | a0 :: _ =>
        let n := Z.of_nat (length a) in
        let virtual_index := (inject_Z (n - 1) * (q / 100))%Q in
        let lo := Qfloor virtual_index in
        let hi := Z.min (lo + 1) (n - 1) in
        let gamma := (virtual_index - inject_Z lo)%Q in
        let a_lo := nth (Z.to_nat lo) a a0 in
        let a_hi := nth (Z.to_nat hi) a a0 in
        Ok (Fin (a_lo + gamma * (a_hi - a_lo)))
    end.

(** every voxel, in C order *)
Definition ravel (image : Volume) : list Q :=
  flat_map (fun z =>
    flat_map (fun y => map (fun x => voxel image z y x)
                           (zrange 0 (shape2 image)))
             (zrange 0 (shape1 image)))
    (zrange 0 (shape0 image)).

(** lines 10-22 of [detect_blobs]: the threshold handed to [blob_log] *)
Definition detect_blobs_threshold (image : Volume) (threshold_mode : string)
    (threshold_value : Q) : result f64 :=
  if String.eqb threshold_mode "percentile" then
    match np_percentile (ravel image) threshold_value with
    | Raise e => Raise e
    | Ok calculated_threshold =>
        match np_max (ravel image) with
        | Raise e => Raise e
        | Ok m => Ok (fdiv calculated_threshold (Fin m))
        end
    end
  else if String.eqb threshold_mode "absolute" then
    match np_max (ravel image) with
    | Raise e => Raise e
    | Ok m => Ok (fdiv (Fin threshold_value) (Fin m))
    end
  else Raise ValueError.

Record Image2D : Type := mkImage2D {
  rows : Z;
  cols : Z;
  pixel : Z -> Z -> Q
}.

(** [image[z]] *)
Definition slice_at (image : Volume) (z : Z) : Image2D :=
  mkImage2D (shape1 image) (shape2 image) (voxel image z).

Section Detector.
(** [blob_log(slice_, min_sigma, max_sigma, num_sigma, threshold)]: the
    rows (y, x, sigma) it returns *)
Variable blob_log : Image2D -> Q -> Q -> Z -> f64 -> list (Q * Q * Q).

(** mean of the 3x3 window clamped at the slice's edges *)
Definition clamped_patch_mean (image : Volume) (z : Z) (y x : Q) : f64 :=
  let y := py_int y in
  let x := py_int x in
  let y0 := Z.max 0 (y - 1) in
  let y1 := Z.min (shape1 image) (y + 2) in
  let x0 := Z.max 0 (x - 1) in
  let x1 := Z.min (shape2 image) (x + 2) in
  np_mean (patch2d image z y0 y1 x0 x1).

(** the two loops after the threshold is known; the final [np.hstack]
    of a list with no row and a column of shape (0, 1) raises *)
Definition detect_blobs_with (image : Volume) (min_sigma max_sigma : Q)
    (num_sigma : Z) (auto_threshold : f64) : result (list blob) :=
  let blobs_all :=
    flat_map (fun z =>
      map (fun b => let '(y, x, sigma) := b in (z, y, x, sigma))
          (blob_log (slice_at image z) min_sigma max_sigma num_sigma
                    auto_threshold))
      (zrange 0 (shape0 image)) in
  match blobs_all with
  | [] => Raise ValueError
  | _ =>
      Ok (map (fun b => let '(z, y, x, sigma) := b in
                mkBlob (inject_Z z) y x sigma (clamped_patch_mean image z y x))
              blobs_all)
  end.

Definition detect_blobs (image : Volume) (min_sigma max_sigma : Q)
    (num_sigma : Z) (threshold_mode : string) (threshold_value : Q)
  : result (list blob) :=
  match detect_blobs_threshold image threshold_mode threshold_value with
  | Raise e => Raise e
  | Ok auto_threshold =>
      detect_blobs_with image min_sigma max_sigma num_sigma auto_threshold
  end.
End Detector.

(** ** Stand-ins for the library calls, used to run the stages *)

(** [skimage.draw.line_nd(start, stop)] with its defaults
    [endpoint=False, integer=True]: [max |stop - start|] points evenly
    spaced from [start], the end point left out *)
Definition line_nd_skimage (start stop : point) : list point :=
  let '(z0, y0, x0) := start in
  let '(z1, y1, x1) := stop in
  let npoints :=
    Z.max (Z.abs (z1 - z0)) (Z.max (Z.abs (y1 - y0)) (Z.abs (x1 - x0))) in
  let at_ (a b k : Z) : Z :=
    np_round (inject_Z a + inject_Z k * inject_Z (b - a) / inject_Z npoints) in
  map (fun k => (at_ z0 z1 k, at_ y0 y1 k, at_ x0 x1 k)) (zrange 0 npoints).

(** insertion of position [i] into a list of positions sorted by key;
    [before a b] decides whether a key [a] goes in front of a key [b] *)
Fixpoint insert_index (before : f64 -> f64 -> bool) (keys : list f64)
    (i : nat) (l : list nat) : list nat :=
  match l with
  | [] => [i]
  | j :: l' =>
      if before (key_at keys i) (key_at keys j) then i :: l
      else j :: insert_index before keys i l'
  end.

Definition insertion_argsort (before : f64 -> f64 -> bool) (keys : list f64)
  : list nat :=
  fold_right (insert_index before keys) [] (seq 0 (length keys)).

(** equal keys keep their input order *)
Definition stable_argsort : list f64 -> list nat :=
  insertion_argsort key_le.


(** [scipy.ndimage.binary_erosion] with its default structuring element
    (the six face neighbours) and [border_value = 0], for
    [iterations >= 1] *)
Definition erode_once (m : Mask) : Mask :=
  let inside z y x :=
    (0 <=? z) && (z <? mshape0 m) && ((0 <=? y) && (y <? mshape1 m))
    && ((0 <=? x) && (x <? mshape2 m)) in
  let set z y x := inside z y x && mvoxel m z y x in
  mkMask (mshape0 m) (mshape1 m) (mshape2 m)
    (fun z y x =>
       set z y x
       && set (z - 1) y x && set (z + 1) y x
       && set z (y - 1) x && set z (y + 1) x
       && set z y (x - 1) && set z y (x + 1)).

Definition binary_erosion_faces (m : Mask) (iterations : Z)
  : Z -> Z -> Z -> bool :=
  mvoxel (Nat.iter (Z.to_nat iterations) erode_once m).

(** ** Notions used in the statements *)

(** [a >= b] on intensities, NaN counted below everything *)
Definition intensity_ge (a b : f64) : bool :=
  match a, b with
  | _, NaN => true
  | NaN, _ => false
  | _, _ => negb (flt a b)
  end.

Definition descending (a b : blob) : Prop :=
  intensity_ge (blob_intensity a) (blob_intensity b) = true.


(** [a] is strictly brighter than [b] (or [b] alone is NaN) *)
Definition strictly_descending (a b : blob) : Prop :=
  intensity_ge (blob_intensity b) (blob_intensity a) = false.


(** the nine voxels of the 3x3 window around (y, x) in slice [z] *)
Definition window3 (image : Volume) (z y x : Z) : list Q :=
  let v := voxel image z in
  [v (y - 1) (x - 1); v (y - 1) x; v (y - 1) (x + 1);
   v y (x - 1);       v y x;       v y (x + 1);
   v (y + 1) (x - 1); v (y + 1) x; v (y + 1) (x + 1)].

(** ** Inputs for the worked examples *)

Definition far_a : blob := mkBlob 0 10 10 2 (Fin 150).
Definition far_b : blob := mkBlob 0 10 13 2 (Fin 200).
Definition far_c : blob := mkBlob 5 50 50 2 (Fin 100).


Definition bridge_image : Volume :=
  mkVolume 1 20 50
    (fun z y x => if (y =? 10) && (x =? 10) then 200%Q else 190%Q).
Definition peak_a : blob := mkBlob 0 10 10 2 (Fin 200).
Definition peak_b : blob := mkBlob 0 10 40 2 (Fin 190).

Definition zero_volume : Volume := mkVolume 1 2 2 (fun _ _ _ => 0%Q).

Definition flat_image : Volume := mkVolume 1 21 21 (fun _ _ _ => 1%Q).
Definition centre_blob : blob := mkBlob 0 10 10 2 (Fin 5).
Definition cube_mask : Mask := mkMask 5 5 5 (fun _ _ _ => true).
Definition inner_blob : blob := mkBlob 2 2 2 1 (Fin 5).
Definition ring_blob : blob := mkBlob 0 2 2 1 (Fin 5).
Definition edge_row : candidate := mkCandidate 0 0 10 2.
Definition centre_row : candidate := mkCandidate 0 10 10 2.

(** ** Further notions used in the statements *)


(** the voxels of rows [y0, y1) and columns [x0, x1) of slice [z] *)
Definition rectangle (image : Volume) (z y0 y1 x0 x1 : Z) : list Q :=
  flat_map (fun y' => map (fun x' => voxel image z y' x') (zrange x0 x1))
           (zrange y0 y1).

(** position [t] of the priority order [bs] cannot lose a pair test:
    as the later blob of a pair it is never the strictly weaker one of
    a pair without a dip, and as the earlier blob it is always the
    strictly stronger one *)
Definition bridge_protected (dip_threshold : Q) (bs : list blob) (t : nat)
  : Prop :=
  forall (u : nat) (bt bu : blob) (min_val : Q),
    bs !! t = Some bt -> bs !! u = Some bu ->
    ((u < t)%nat ->
     fgt (dip_ratio min_val (blob_intensity bu) (blob_intensity bt))
         (Fin dip_threshold) = true ->
     fgt (blob_intensity bu) (blob_intensity bt) = false) /\
    ((t < u)%nat ->
     fgt (dip_ratio min_val (blob_intensity bt) (blob_intensity bu))
         (Fin dip_threshold) = true ->
     fgt (blob_intensity bt) (blob_intensity bu) = true).

(** ** Further inputs for the worked examples *)

(** a 5x5x5 mask that is empty at its centre voxel *)
Definition hollow_mask : Mask :=
  mkMask 5 5 5 (fun z y x => negb ((z =? 2) && (y =? 2) && (x =? 2))).

(** a blob whose intensity could not be measured *)
Definition unmeasured_peak : blob := mkBlob 0 10 40 2 NaN.

(** [peak_a] moved by less than a voxel *)
Definition peak_a_shifted : blob := mkBlob 0 (104 # 10) (107 # 10) 2 (Fin 180).

(** a detector that reports one candidate at (1, 1) with sigma 2 in
    every slice *)
Definition one_candidate (slice_ : Image2D) (min_sigma max_sigma : Q)
    (num_sigma : Z) (threshold : f64) : list (Q * Q * Q) :=
  [(1%Q, 1%Q, 2%Q)].

(** ** The detection pipeline of manual_blob_annotation_gui *)

(** lines 39-46 of e_manual_blob_annotation_gui_tool.py: detection, then
    the two suppressors with their default parameters; the result is
    the array shown as 'Filtered Blobs' *)
Definition detect_and_suppress `{ArgSort}
    (blob_log : Image2D -> Q -> Q -> Z -> f64 -> list (Q * Q * Q))
    (line_nd : point -> point -> list point)
    (image : Volume) (min_sigma max_sigma : Q) (num_sigma : Z)
    (threshold_mode : string) (threshold_value : Q) : result (list blob) :=
  match detect_blobs blob_log image min_sigma max_sigma num_sigma
          threshold_mode threshold_value with
  | Raise e => Raise e
  | Ok all_detected_blobs =>
      let blobs_after_removing_close_ones :=
        suppress_close_blobs_by_intensity all_detected_blobs 10 2 in
      suppress_blobs_by_bridge_intensity line_nd
        blobs_after_removing_close_ones image 20 4 (1 # 2)
  end.

(** ** image_utils.py: generate_small_version_of_image *)

(** the array read from the file: a single image or a stack *)
Inductive ndimage : Type :=
| Image2 (i : Image2D)
| Image3 (v : Volume).

Inductive crop_exn : Type := StackIndexError | ZeroDivisionError.

(** [image[..., :new_h, -new_w:]] on the last two axes: the row stop,
    and the column start, by the rules of slicing *)
Definition crop_row_stop (rows_ new_h : Z) : Z := slice_bound rows_ new_h.
Definition crop_col_start (cols_ new_w : Z) : Z := slice_bound cols_ (- new_w).

Definition crop2d (i : Image2D) (new_h new_w : Z) : Image2D :=
  let c0 := crop_col_start (cols i) new_w in
  mkImage2D (Z.max 0 (crop_row_stop (rows i) new_h))
            (Z.max 0 (cols i - c0))
            (fun r c => pixel i r (c0 + c)).

Definition crop3d (v : Volume) (new_h new_w : Z) : Volume :=
  let c0 := crop_col_start (shape2 v) new_w in
  mkVolume (shape0 v)
           (Z.max 0 (crop_row_stop (shape1 v) new_h))
           (Z.max 0 (shape2 v - c0))
           (fun z r c => voxel v z r (c0 + c)).

(** the array work of generate_small_version_of_image, between reading
    the file and saving or showing the result *)
Definition generate_small_version_of_image (image : ndimage)
    (shrinking_factor : Z) (three_dimensions : bool) : crop_exn + ndimage :=
  let middle :=
    match image with
    | Image3 v =>
        if negb three_dimensions then
          match wrap_index (shape0 v) (shape0 v / 2) with
          | Some z => inr (Image2 (slice_at v z))
          | None => inl StackIndexError
          end
        else inr image
    | Image2 _ => inr image
    end in
  match middle with
  | inl e => inl e
  | inr image =>
      if shrinking_factor =? 0 then inl ZeroDivisionError
      else
        match image with
        | Image2 i =>
            inr (Image2 (crop2d i (rows i / shrinking_factor)
                                  (cols i / shrinking_factor)))
        | Image3 v =>
            inr (Image3 (crop3d v (shape1 v / shrinking_factor)
                                  (shape2 v / shrinking_factor)))
        end
  end.

(** ** file_handling_helpers.py *)

(** [f"{base}{base_suffix}{i}{ext}"] *)
Definition version_path (base base_suffix ext : string) (i : nat) : string :=
  base +:+ base_suffix +:+ pretty i +:+ ext.

(** the loop of get_next_available_version from version [i] on, for
    the set [fs] of paths on which os.path.exists is true; [fuel]
    bounds the number of further rounds *)
Fixpoint next_version_from (fs : gset string) (base base_suffix ext : string)
    (fuel i : nat) : option string :=
  let new_path := version_path base base_suffix ext i in
  if bool_decide (new_path ∈ fs) then
    match fuel with
    | O => None
    | S fuel' => next_version_from fs base base_suffix ext fuel' (S i)
    end
  else Some new_path.

Definition get_next_available_version (splitext : string -> string * string)
    (fs : gset string) (fuel : nat) (path base_suffix : string)
  : option string :=
  let '(base, ext) := splitext path in
  next_version_from fs base base_suffix ext fuel 2.

(** the button of the message box the user clicked *)
Inductive button : Type := overwrite_button | save_v2_button | cancel_button.

(** resolve_output_path_with_user_prompt; the inner [None] is Python's
    [None] ("Don't Save") *)
Definition resolve_output_path_with_user_prompt
    (splitext : string -> string * string) (fs : gset string) (fuel : nat)
    (output_path : string) (clicked : button) : option (option string) :=
  if bool_decide (output_path ∈ fs) then
    match clicked with
    | save_v2_button =>
        Some <$> get_next_available_version splitext fs fuel output_path "_v"
    | cancel_button => Some None
    | overwrite_button => Some (Some output_path)
    end
  else Some (Some output_path).

(** a splitting of a path at its last dot, to run the examples *)
Definition splitext_tif (path : string) : string * string :=
  if String.eqb path "out/cells.tif" then ("out/cells", ".tif")
  else (path, "").

(** ** e_manual_blob_annotation_gui_tool.py: export_ground_truth *)

(** a row (z, y, x) of a points layer *)
Definition point3 : Type := (Q * Q * Q)%type.

(** one coordinate of [np.allclose(orig, curr, atol=1.0)], with the
    default [rtol = 1e-05] *)
Definition isclose (a b : Q) : bool :=
  Qle_bool (Qabs (a - b)) (1 + (1 # 100000) * Qabs b).

Definition allclose (orig curr : point3) : bool :=
  let '(z1, y1, x1) := orig in
  let '(z2, y2, x2) := curr in
  isclose z1 z2 && isclose y1 y2 && isclose x1 x2.

(** [for i, curr in enumerate(current_data)], from index [i] on: the
    first point that is not used yet and close to [orig] *)
Fixpoint find_match (orig : point3) (current_data : list point3)
    (used : list bool) (i : nat) : option nat :=
  match current_data with
  | [] => None
  | curr :: rest =>
      if negb (default false (used !! i)) && allclose orig curr then Some i
      else find_match orig rest used (S i)
  end.

Record export_columns : Type := mkExport {
  used : list bool;
  labels : list string;
  origins : list string;
  statuses : list string
}.

(** one round of [for orig in original_data] *)
Definition match_original (current_data : list point3) (acc : export_columns)
    (orig : point3) : export_columns :=
  match find_match orig current_data (used acc) 0 with
  | Some i =>
      mkExport (<[i := true]> (used acc))
               (labels acc ++ ["true_positive"])
               (origins acc ++ ["detected"])
               (statuses acc ++ ["kept"])
  | None =>
      mkExport (used acc)
               (labels acc ++ ["false_positive"])
               (origins acc ++ ["detected"])
               (statuses acc ++ ["removed"])
  end.

(** [[curr for i, curr in enumerate(current_data) if not used[i]]] *)
Definition unmatched (current_data : list point3) (used : list bool)
  : list point3 :=
  boolean_index current_data (map negb used).

Record ground_truth : Type := mkGroundTruth {
  gt_coords : list point3;
  gt_origin : list string;
  gt_status : list string;
  gt_label_for_ml : list string
}.

(** the columns z/y/x, origin, status and label_for_ml that
    export_ground_truth builds from the detected points and the points
    now in the layer *)
Definition export_ground_truth (original_data current_data : list point3)
  : ground_truth :=
  let start := mkExport (replicate (length current_data) false) [] [] [] in
  let acc := fold_left (match_original current_data) original_data start in
  let added := unmatched current_data (used acc) in
  mkGroundTruth
    (original_data ++ added)
    (origins acc ++ map (fun _ => "manual"%string) added)
    (statuses acc ++ map (fun _ => "added"%string) added)
    (labels acc ++ map (fun _ => "false_negative"%string) added).

Definition count_label (label : string) (l : list string) : nat :=
  length (List.filter (String.eqb label) l).

Definition count_true (l : list bool) : nat := length (List.filter id l).

(** what the rounds over the detected points keep true *)
Definition export_invariant (current_data : list point3) (n : nat)
    (acc : export_columns) : Prop :=
  length (used acc) = length current_data /\
  length (labels acc) = n /\ length (origins acc) = n /\
  length (statuses acc) = n /\
  count_label "true_positive" (labels acc) = count_true (used acc) /\
  (count_label "true_positive" (labels acc)
   + count_label "false_positive" (labels acc))%nat = n /\
  count_label "false_negative" (labels acc) = 0%nat.

(** ** d_review_cells_manually_with_gui.py: the exclusion state *)

(** the mask: a 2D label image, 0 for background and k > 0 for the
    pixels of cell k *)
Record LabelImage : Type := mkLabelImage {
  lrows : Z;
  lcols : Z;
  cell_at : Z -> Z -> Z
}.

(** the list [excluded] and the array [exclusion_mask] (1 as [true])
    that the callbacks share; the boundary overlay is recomputed from
    [exclusion_mask] alone and is left out *)
Record review_state : Type := mkReview {
  excluded : list bool;
  exclusion_mask : Z -> Z -> bool
}.

(** [exclusion_mask[mask == cell_id] = value] *)
Definition paint_cell (mask : LabelImage) (cell_id : Z) (value : bool)
    (exclusion_mask : Z -> Z -> bool) : Z -> Z -> bool :=
  fun y x => if cell_at mask y x =? cell_id then value else exclusion_mask y x.

(** the loop that builds [exclusion_mask] from the list, over
    [enumerate(excluded)] from [index] on *)
Fixpoint paint_excluded (mask : LabelImage) (index : nat)
    (excluded : list bool) (exclusion_mask : Z -> Z -> bool)
  : Z -> Z -> bool :=
  match excluded with
  | [] => exclusion_mask
  | is_excluded :: rest =>
      paint_excluded mask (S index) rest
        (if is_excluded
         then paint_cell mask (Z.of_nat index + 1) true exclusion_mask
         else exclusion_mask)
  end.

Definition initial_review_state (mask : LabelImage) (excluded : list bool)
  : review_state :=
  mkReview excluded (paint_excluded mask 0 excluded (fun _ _ => false)).

Definition update_cell (mask : LabelImage) (index : nat) (st : review_state)
  : result review_state :=
  match excluded st !! index with
  | Some flag =>
      Ok (mkReview (excluded st)
            (paint_cell mask (Z.of_nat index + 1) flag (exclusion_mask st)))
  | None => Raise IndexError
  end.

(** the mouse callback, for the rounded cursor position (y, x);
    [left_press] says whether the event is a press of button 1 *)
Definition on_mouse_click (mask : LabelImage) (left_press : bool)
    (cursor_y cursor_x : Q) (st : review_state) : result review_state :=
  if left_press then
    let y := np_round cursor_y in
    let x := np_round cursor_x in
    if (0 <=? y) && (y <? lrows mask) && ((0 <=? x) && (x <? lcols mask))
    then
      let clicked_cell_id := cell_at mask y x in
      if 0 <? clicked_cell_id then
        let idx := Z.to_nat (clicked_cell_id - 1) in
        match excluded st !! idx with
        | Some flag =>
            update_cell mask idx
              (mkReview (<[idx := negb flag]> (excluded st))
                        (exclusion_mask st))
        | None => Raise IndexError
        end
      else Ok st
    else Ok st
  else Ok st.

(** [exclusion_mask] marks exactly the pixels of the excluded cells *)
Definition marks_excluded (mask : LabelImage) (st : review_state) : Prop :=
  forall y x,
    exclusion_mask st y x = true <->
    exists idx, cell_at mask y x = Z.of_nat idx + 1 /\
                excluded st !! idx = Some true.

(** a 2x2 mask with cell 1 in the left column and cell 2 at the top
    right *)
Definition two_cells : LabelImage :=
  mkLabelImage 2 2
    (fun y x => if x =? 0 then 1 else if y =? 0 then 2 else 0).

(** ** d_review_cells_manually_with_gui.py: the exclusion file *)

Definition line_feed : ascii := ascii_of_nat 10.
Definition carriage_return : ascii := ascii_of_nat 13.

Definition is_line_break (c : ascii) : bool :=
  (nat_of_ascii c =? 10)%nat || (nat_of_ascii c =? 13)%nat.

Fixpoint has_line_break (s : string) : bool :=
  match s with
  | EmptyString => false
  | String c s' => is_line_break c || has_line_break s'
  end.

(** [str(val)] of a bool *)
Definition py_bool_str (val : bool) : string :=
  if val then "True" else "False".

(** the rows [f"{idx}, {val}\n"] for [enumerate(excluded)], from [idx]
    on *)
Fixpoint exclusion_rows (idx : nat) (excluded : list bool) : string :=
  match excluded with
  | [] => ""
  | val :: rest =>
      pretty idx +:+ ", " +:+ py_bool_str val +:+ String line_feed ""
      +:+ exclusion_rows (S idx) rest
  end.

(** all that the [with open(excluded_txt_path, 'w')] block writes;
    [created] is the formatted time stamp *)
Definition write_exclusion_file (base_filename excluded_txt_path created
    : string) (n_cells : Z) (excluded : list bool) : string :=
  "# Exclusion file for: " +:+ base_filename +:+ String line_feed ""
  +:+ "# Saved to: " +:+ excluded_txt_path +:+ String line_feed ""
  +:+ "# Created on: " +:+ created +:+ String line_feed ""
  +:+ "# Total cells: " +:+ pretty n_cells +:+ String line_feed ""
  +:+ "# Format: cell_index, excluded" +:+ String line_feed ""
  +:+ exclusion_rows 0 excluded.

(** [for line in f] on a file opened in text mode: lines end after a
    line feed, a carriage return or the pair, all read as one line feed;
    [line] is the part of the current line read so far *)
Fixpoint read_lines_go (line : string) (s : string) : list string :=
  match s with
  | EmptyString =>
      match line with EmptyString => [] | _ => [line] end
  | String c s' =>
      if (nat_of_ascii c =? 10)%nat then
        (line +:+ String line_feed "") :: read_lines_go "" s'
      else if (nat_of_ascii c =? 13)%nat then
        match s' with
        | String c' s'' =>
            if (nat_of_ascii c' =? 10)%nat
            then (line +:+ String line_feed "") :: read_lines_go "" s''
            else (line +:+ String line_feed "") :: read_lines_go "" s'
        | EmptyString => [line +:+ String line_feed ""]
        end
      else read_lines_go (line +:+ String c "") s'
  end.

Definition read_lines (content : string) : list string :=
  read_lines_go "" content.

(** [line.startswith('#')] *)
Definition startswith_hash (line : string) : bool :=
  match line with
  | String c _ => (nat_of_ascii c =? 35)%nat
  | EmptyString => false
  end.

(** the white space of [str.strip()] among the first 256 code points *)
Definition is_py_space (c : ascii) : bool :=
  let n := nat_of_ascii c in
  ((9 <=? n) && (n <=? 13) || (28 <=? n) && (n <=? 32)
   || (n =? 133) || (n =? 160))%nat.

Fixpoint py_lstrip (s : string) : string :=
  match s with
  | EmptyString => ""
  | String c s' => if is_py_space c then py_lstrip s' else s
  end.

Fixpoint py_rstrip (s : string) : string :=
  match s with
  | EmptyString => ""
  | String c s' =>
      match py_rstrip s' with
      | EmptyString => if is_py_space c then "" else String c ""
      | r => String c r
      end
  end.

Definition py_strip (s : string) : string := py_rstrip (py_lstrip s).

(** [str.lower()] on the first 256 code points *)
Definition py_lower_char (c : ascii) : ascii :=
  let n := nat_of_ascii c in
  if ((65 <=? n) && (n <=? 90)
      || (192 <=? n) && (n <=? 222) && negb (n =? 215))%nat
  then ascii_of_nat (n + 32) else c.

Fixpoint py_lower (s : string) : string :=
  match s with
  | EmptyString => ""
  | String c s' => String (py_lower_char c) (py_lower s')
  end.

(** [s.endswith(suffix)] *)
Fixpoint py_endswith (s suffix : string) : bool :=
  String.eqb s suffix
  || match s with
     | EmptyString => false
     | String _ s' => py_endswith s' suffix
     end.

(** the list comprehension that loads [excluded] from the file *)
Definition load_exclusions (content : string) : list bool :=
  map (fun line => py_endswith (py_lower (py_strip line)) "true")
      (List.filter (fun line => negb (startswith_hash line))
                   (read_lines content)).

(** a data row, seen by the reader *)
Definition exclusion_row (idx : nat) (val : bool) : string :=
  pretty idx +:+ ", " +:+ py_bool_str val +:+ String line_feed "".

Fixpoint all_digits (s : string) : bool :=
  match s with
  | EmptyString => true
  | String c s' =>
      (48 <=? nat_of_ascii c)%nat && (nat_of_ascii c <=? 57)%nat
      && all_digits s'
  end.

(** * Properties *)

(** ** Comparisons *)

Lemma Qltb_lt (a b : Q) : Qltb a b = true <-> (a < b)%Q.
Proof. unfold Qltb, Qlt. apply Z.ltb_lt. Qed.

Lemma Qltb_ge (a b : Q) : Qltb a b = false <-> (b <= a)%Q.
Proof. unfold Qltb, Qle. rewrite Z.ltb_ge. reflexivity. Qed.

Lemma Qis_zero_eq (a : Q) : Qis_zero a = true <-> (a == 0)%Q.
Proof.
  unfold Qis_zero, Qeq. rewrite Z.eqb_eq. simpl. lia.
Qed.

Lemma key_le_fin (p q : Q) : key_le (Fin p) (Fin q) = true <-> (p <= q)%Q.
Proof.
  simpl. rewrite negb_true_iff. apply Qltb_ge.
Qed.

Lemma key_le_refl (a : f64) : key_le a a = true.
Proof.
  destruct a as [p| | |]; try reflexivity.
  apply key_le_fin, Qle_refl.
Qed.

Lemma key_le_trans (a b c : f64) :
  key_le a b = true -> key_le b c = true -> key_le a c = true.
Proof.
  destruct a as [p| | |], b as [q| | |], c as [r| | |];
    try (simpl; congruence).
  rewrite !key_le_fin. apply Qle_trans.
Qed.

Lemma key_le_total (a b : f64) : key_le a b = false -> key_le b a = true.
Proof.
  destruct a as [p| | |], b as [q| | |]; try (simpl; congruence).
  intros H. apply key_le_fin.
  apply not_true_iff_false in H. rewrite key_le_fin in H.
  apply Qlt_le_weak, Qnot_le_lt, H.
Qed.

(** ** The two insertion sorts meet the contract of [np.argsort] *)

Section InsertionSort.
Variable before : f64 -> f64 -> bool.
Hypothesis before_le : forall a b, before a b = true -> key_le a b = true.
Hypothesis before_ge : forall a b, before a b = false -> key_le b a = true.
Variable keys : list f64.

Let ordered (i j : nat) : Prop :=
  key_le (key_at keys i) (key_at keys j) = true.

Lemma insert_index_perm (i : nat) (l : list nat) :
  insert_index before keys i l ≡ₚ i :: l.
Proof.
  induction l as [|j l IH]; simpl; [reflexivity|].
  destruct (before _ _); [reflexivity|].
  rewrite IH. apply Permutation_swap.
Qed.

Lemma insertion_argsort_perm :
  insertion_argsort before keys ≡ₚ seq 0 (length keys).
Proof.
  unfold insertion_argsort.
  induction (seq 0 (length keys)) as [|i l IH]; simpl; [reflexivity|].
  rewrite insert_index_perm. by rewrite IH.
Qed.

Lemma insert_index_sorted (i : nat) (l : list nat) :
  Sorted ordered l -> Sorted ordered (insert_index before keys i l).
Proof.
  induction l as [|j l IH]; simpl; intros Hs.
  - repeat constructor.
  - destruct (before _ _) eqn:Hb.
    + constructor; [assumption|]. constructor. by apply before_le.
    + inversion Hs as [|? ? Hl Hhd]; subst.
      constructor; [by apply IH|].
      destruct l as [|k l]; simpl.
      * constructor. by apply before_ge.
      * destruct (before _ (key_at keys k)).
        -- constructor. by apply before_ge.
        -- inversion Hhd; subst. by constructor.
Qed.

Lemma insertion_argsort_sorted :
  StronglySorted ordered (insertion_argsort before keys).
Proof.
  apply Sorted_StronglySorted.
  - intros i j k. apply key_le_trans.
  - unfold insertion_argsort.
    induction (seq 0 (length keys)) as [|i l IH]; simpl.
    + constructor.
    + by apply insert_index_sorted.
Qed.
End InsertionSort.

Lemma stable_argsort_sorted (keys : list f64) :
  StronglySorted (fun i j => key_le (key_at keys i) (key_at keys j) = true)
                 (stable_argsort keys).
Proof.
  apply insertion_argsort_sorted; [done|]. apply key_le_total.
Qed.


(** a sort that keeps equal keys in input order *)
Definition stable_sort : ArgSort :=
  {| argsort := stable_argsort;
     argsort_perm := insertion_argsort_perm key_le;
     argsort_sorted := stable_argsort_sorted |}.


(** ** Index arrays and boolean masks *)

Lemma fancy_index_seq_app {A} (pre l : list A) :
  fancy_index (pre ++ l) (seq (length pre) (length l)) = l.
Proof.
  revert pre. induction l as [|a l IH]; intros pre; [reflexivity|].
  unfold fancy_index in *. simpl.
  rewrite list_lookup_middle by reflexivity. f_equal.
  specialize (IH (pre ++ [a])).
  rewrite <- app_assoc, length_app in IH. simpl in IH.
  by rewrite Nat.add_1_r in IH.
Qed.

Lemma fancy_index_seq {A} (l : list A) :
  fancy_index l (seq 0 (length l)) = l.
Proof. apply (fancy_index_seq_app [] l). Qed.

Lemma fancy_index_perm {A} (l : list A) (indices : list nat) :
  indices ≡ₚ seq 0 (length l) -> fancy_index l indices ≡ₚ l.
Proof.
  intros Hp. pose proof (fancy_index_seq l) as E.
  unfold fancy_index in *. rewrite Hp. by rewrite E.
Qed.

Lemma boolean_index_sublist {A} (l : list A) (mask : list bool) :
  boolean_index l mask `sublist_of` l.
Proof.
  revert mask. induction l as [|a l IH]; intros [|k mask]; simpl;
    try apply sublist_nil_l.
  destruct k; [by apply sublist_skip | by apply sublist_cons].
Qed.

Lemma elem_of_boolean_index {A} (l : list A) (mask : list bool) (v : A) :
  v ∈ boolean_index l mask ->
  exists j, l !! j = Some v /\ mask !! j = Some true.
Proof.
  revert mask. induction l as [|a l IH]; intros [|k mask]; simpl;
    try (by intros ?%elem_of_nil).
  destruct k.
  - intros [->|Hin]%elem_of_cons; [by exists 0%nat|].
    destruct (IH _ Hin) as (j & ? & ?). by exists (S j).
  - intros Hin. destruct (IH _ Hin) as (j & ? & ?). by exists (S j).
Qed.

Lemma boolean_index_pairwise {A} (R : A -> A -> Prop) (l : list A)
    (mask : list bool) :
  (forall i j a b, (i < j)%nat ->
     l !! i = Some a -> mask !! i = Some true ->
     l !! j = Some b -> mask !! j = Some true -> R a b) ->
  StronglySorted R (boolean_index l mask).
Proof.
  revert mask. induction l as [|a l IH]; intros [|k mask] HR; simpl;
    try constructor.
  assert (Htl : StronglySorted R (boolean_index l mask)).
  { apply IH. intros i j u v Hij ? ? ? ?.
    apply (HR (S i) (S j) u v); simpl; auto with lia. }
  destruct k; [|assumption].
  constructor; [assumption|].
  apply Forall_forall. intros v Hv.
  destruct (elem_of_boolean_index l mask v Hv) as (j & ? & ?).
  apply (HR 0%nat (S j) a v); simpl; auto with lia.
Qed.

Lemma boolean_index_all_true {A} (l : list A) :
  boolean_index l (replicate (length l) true) = l.
Proof. induction l as [|a l IH]; simpl; by f_equal. Qed.

Lemma StronglySorted_lookup {A} (R : A -> A -> Prop) (l : list A)
    (p q : nat) (a b : A) :
  StronglySorted R l -> (p < q)%nat ->
  l !! p = Some a -> l !! q = Some b -> R a b.
Proof.
  intros Hs. revert p q. induction Hs as [|c l Hs IH Hall]; intros p q Hpq.
  - by rewrite lookup_nil.
  - destruct q as [|q]; [lia|]. destruct p as [|p]; simpl.
    + intros [= ->] Hq. rewrite Forall_forall in Hall. apply Hall.
      by eapply list_elem_of_lookup_2.
    + apply IH. lia.
Qed.

Lemma StronglySorted_sublist {A} (R : A -> A -> Prop) (l k : list A) :
  l `sublist_of` k -> StronglySorted R k -> StronglySorted R l.
Proof.
  induction 1 as [|a l k Hsub IH|a l k Hsub IH]; intros Hs.
  - constructor.
  - inversion Hs as [|? ? Hk Hall]; subst. constructor; [by apply IH|].
    rewrite Forall_forall in *. intros v Hv. apply Hall.
    by eapply elem_of_sublist.
  - inversion Hs; subst. by apply IH.
Qed.

Lemma StronglySorted_symmetric_perm {A} (R : A -> A -> Prop) (l k : list A) :
  (forall a b, R a b -> R b a) ->
  l ≡ₚ k -> StronglySorted R l -> StronglySorted R k.
Proof.
  intros Hsym. induction 1 as [|a l k Hp IH|a b l|l k m Hp1 IH1 Hp2 IH2];
    intros Hs; auto.
  - inversion Hs as [|? ? Hl Hall]; subst. constructor; [by apply IH|].
    by rewrite <- Hp.
  - inversion Hs as [|? ? Hl Hall]; subst.
    inversion Hl as [|? ? Hl' Hall']; subst.
    inversion Hall as [|? ? Hab Hall'']; subst.
    constructor; [by constructor|]. constructor; [by apply Hsym|assumption].
Qed.

(** ** The keep mask of the proximity scan *)

Section ProximityFacts.
Variables radius_xy z_window : Q.
Variable bs : list blob.

Local Abbreviation visit := (proximity_visit radius_xy z_window bs).
Local Abbreviation inner := (proximity_inner radius_xy z_window bs).
Local Abbreviation step := (proximity_step radius_xy z_window bs).
Local Abbreviation outer := (proximity_outer radius_xy z_window bs).
Local Abbreviation near := (in_cylinder radius_xy z_window).

Lemma proximity_visit_length (b0 : blob) (keep : list bool) (j : nat) :
  length (visit b0 keep j) = length keep.
Proof.
  unfold proximity_visit.
  destruct (keep !! j) as [[]|], (bs !! j); try reflexivity.
  destruct (near _ _); [apply length_insert|reflexivity].
Qed.

(** a visit can only clear position [j] *)
Lemma proximity_visit_lookup (b0 : blob) (keep : list bool) (j t : nat) :
  visit b0 keep j !! t =
  if decide (t = j) then
    match keep !! j, bs !! j with
    | Some true, Some b1 => Some (negb (near b0 b1))
    | k, _ => k
    end
  else keep !! t.
Proof.
  unfold proximity_visit.
  destruct (decide (t = j)) as [->|Hne].
  - destruct (keep !! j) as [[]|] eqn:Hk; try done.
    destruct (bs !! j); [|done].
    destruct (near _ _); simpl; [|done].
    apply list_lookup_insert_eq. by eapply lookup_lt_Some.
  - destruct (keep !! j) as [[]|], (bs !! j); try done.
    destruct (near _ _); [|done].
    by rewrite list_lookup_insert_ne.
Qed.

Lemma proximity_inner_length (b0 : blob) (js : list nat) (keep : list bool) :
  length (inner b0 js keep) = length keep.
Proof.
  revert keep. induction js as [|j js IH]; intros keep; simpl; [done|].
  by rewrite IH, proximity_visit_length.
Qed.

(** positions outside [js] are untouched *)
Lemma proximity_inner_other (b0 : blob) (js : list nat) (keep : list bool)
    (t : nat) :
  t ∉ js -> inner b0 js keep !! t = keep !! t.
Proof.
  revert keep. induction js as [|j js IH]; intros keep Ht; simpl; [done|].
  apply not_elem_of_cons in Ht as [Hne Ht].
  rewrite IH by done. rewrite proximity_visit_lookup.
  by destruct (decide (t = j)).
Qed.

(** a position is never set back to kept *)
Lemma proximity_inner_mono (b0 : blob) (js : list nat) (keep : list bool)
    (t : nat) :
  inner b0 js keep !! t = Some true -> keep !! t = Some true.
Proof.
  revert keep. induction js as [|j js IH]; intros keep; simpl; [done|].
  intros H%IH. rewrite proximity_visit_lookup in H.
  destruct (decide (t = j)) as [->|]; [|done].
  destruct (keep !! j) as [[]|]; try done.
Qed.

(** a visited position that is still kept is out of the cylinder *)
Lemma proximity_inner_far (b0 b1 : blob) (js : list nat) (keep : list bool)
    (t : nat) :
  t ∈ js -> bs !! t = Some b1 ->
  inner b0 js keep !! t = Some true -> near b0 b1 = false.
Proof.
  revert keep. induction js as [|j js IH]; intros keep Ht Hb; simpl.
  { by apply elem_of_nil in Ht. }
  intros H. destruct (decide (t = j)) as [->|Hne].
  - apply proximity_inner_mono in H.
    rewrite proximity_visit_lookup, decide_True in H by done.
    rewrite Hb in H. destruct (keep !! j) as [[]|]; try done.
    injection H as H. by apply negb_true_iff.
  - apply elem_of_cons in Ht as [?|Ht]; [done|]. by eapply IH.
Qed.

(** with nothing in the cylinder the scan changes nothing *)
Lemma proximity_inner_id (b0 : blob) (js : list nat) (keep : list bool) :
  (forall j b1, j ∈ js -> bs !! j = Some b1 -> near b0 b1 = false) ->
  inner b0 js keep = keep.
Proof.
  revert keep. induction js as [|j js IH]; intros keep Hfar; simpl; [done|].
  assert (Hv : visit b0 keep j = keep).
  { unfold proximity_visit.
    destruct (keep !! j) as [[]|]; try done.
    destruct (bs !! j) as [b1|] eqn:Hb; [|done].
    rewrite (Hfar j b1); [done| |done]. apply elem_of_cons; by left. }
  rewrite Hv. apply IH. intros t b1 Ht. apply Hfar.
  apply elem_of_cons; by right.
Qed.

Lemma proximity_step_length (keep : list bool) (i : nat) :
  length (step keep i) = length keep.
Proof.
  unfold proximity_step.
  destruct (keep !! i) as [[]|], (bs !! i); try done.
  apply proximity_inner_length.
Qed.

Lemma proximity_step_mono (keep : list bool) (i t : nat) :
  step keep i !! t = Some true -> keep !! t = Some true.
Proof.
  unfold proximity_step.
  destruct (keep !! i) as [[]|], (bs !! i); try done.
  apply proximity_inner_mono.
Qed.

Lemma proximity_step_low (keep : list bool) (i t : nat) :
  (t <= i)%nat -> step keep i !! t = keep !! t.
Proof.
  intros Hle. unfold proximity_step.
  destruct (keep !! i) as [[]|], (bs !! i); try done.
  apply proximity_inner_other. rewrite elem_of_seq. lia.
Qed.

Lemma proximity_outer_mono (idx : list nat) (keep : list bool) (t : nat) :
  outer idx keep !! t = Some true -> keep !! t = Some true.
Proof.
  revert keep. induction idx as [|i idx IH]; intros keep; simpl; [done|].
  intros H%IH. by eapply proximity_step_mono.
Qed.

Lemma proximity_outer_low (m k : nat) (keep : list bool) (t : nat) :
  (t <= m)%nat -> outer (seq m k) keep !! t = keep !! t.
Proof.
  revert m keep. induction k as [|k IH]; intros m keep Hle; simpl; [done|].
  rewrite IH by lia. by apply proximity_step_low.
Qed.

(** the invariant of the outer loop: two positions scanned and still
    kept are not in one cylinder *)
Lemma proximity_outer_far (m k : nat) (keep : list bool) (i j : nat)
    (a b : blob) :
  (m <= i)%nat -> (i < j)%nat -> (i < m + k)%nat ->
  bs !! i = Some a -> bs !! j = Some b ->
  outer (seq m k) keep !! i = Some true ->
  outer (seq m k) keep !! j = Some true ->
  near a b = false.
Proof.
  revert m keep. induction k as [|k IH]; intros m keep Hmi Hij Hik Ha Hb;
    [lia|].
  simpl. intros Hi Hj.
  destruct (decide (i = m)) as [->|Hne].
  - rewrite proximity_outer_low in Hi by lia.
    apply proximity_outer_mono in Hj.
    pose proof Hi as Hi'. rewrite proximity_step_low in Hi' by lia.
    unfold proximity_step in Hj. rewrite Hi', Ha in Hj.
    eapply proximity_inner_far; [|exact Hb|exact Hj].
    apply elem_of_seq. apply lookup_lt_Some in Hb. lia.
  - apply (IH (S m) (step keep m)); auto with lia.
Qed.

Lemma proximity_outer_id (idx : list nat) (keep : list bool) :
  StronglySorted (fun a b => near a b = false) bs ->
  outer idx keep = keep.
Proof.
  intros Hs. revert keep. induction idx as [|i idx IH]; intros keep; simpl;
    [done|].
  assert (Hst : step keep i = keep).
  { unfold proximity_step.
    destruct (keep !! i) as [[]|]; try done.
    destruct (bs !! i) as [b0|] eqn:Hb0; [|done].
    apply proximity_inner_id. intros j b1 Hj Hb1.
    apply elem_of_seq in Hj.
    apply (StronglySorted_lookup _ bs i j b0 b1 Hs); auto with lia. }
  rewrite Hst. apply IH.
Qed.
End ProximityFacts.

(** ** ProximitySuppressor: what survives *)

Lemma in_cylinder_sym (radius_xy z_window : Q) (a b : blob) :
  in_cylinder radius_xy z_window a b = in_cylinder radius_xy z_window b a.
Proof.
  unfold in_cylinder. rewrite (Qabs_Qminus (blob_z b) (blob_z a)). f_equal.
  apply Qleb_comp; [|reflexivity]. simpl. ring.
Qed.

Lemma in_cylinder_true (radius_xy z_window : Q) (a b : blob) :
  in_cylinder radius_xy z_window a b = true <->
  (Qabs (blob_z a - blob_z b) <= z_window)%Q /\
  ((blob_y a - blob_y b) ^ 2 + (blob_x a - blob_x b) ^ 2 <= radius_xy ^ 2)%Q.
Proof.
  rewrite in_cylinder_sym. unfold in_cylinder.
  rewrite andb_true_iff, !Qle_bool_iff. reflexivity.
Qed.

Lemma sort_by_intensity_perm `{ArgSort} (blobs : list blob) :
  sort_by_intensity blobs ≡ₚ blobs.
Proof.
  unfold sort_by_intensity. apply fancy_index_perm.
  rewrite argsort_perm. by rewrite length_map.
Qed.

Lemma suppress_close_sublist `{ArgSort} (blobs : list blob)
    (radius_xy z_window : Q) :
  suppress_close_blobs_by_intensity blobs radius_xy z_window
    `sublist_of` sort_by_intensity blobs.
Proof.
  unfold suppress_close_blobs_by_intensity.
  destruct (length blobs =? 0)%nat eqn:E.
  - apply Nat.eqb_eq, nil_length_inv in E. subst. apply sublist_nil_l.
  - apply boolean_index_sublist.
Qed.

(** survivors are pairwise out of each other's cylinder, in scan order *)
Lemma suppress_close_pairwise `{ArgSort} (blobs : list blob)
    (radius_xy z_window : Q) :
  StronglySorted (fun a b => in_cylinder radius_xy z_window a b = false)
    (suppress_close_blobs_by_intensity blobs radius_xy z_window).
Proof.
  unfold suppress_close_blobs_by_intensity.
  destruct (length blobs =? 0)%nat eqn:E.
  - apply Nat.eqb_eq, nil_length_inv in E. subst. constructor.
  - apply boolean_index_pairwise. intros i j a b Hij Ha Hi Hb Hj.
    eapply (proximity_outer_far radius_xy z_window (sort_by_intensity blobs)
              0 (length (sort_by_intensity blobs)) _ i j a b);
      try eassumption; try lia.
    simpl. by eapply lookup_lt_Some.
Qed.

(** a list with no two blobs in one cylinder passes unchanged, up to
    the order the sort gives it *)
Lemma suppress_close_far_input `{ArgSort} (blobs : list blob)
    (radius_xy z_window : Q) :
  StronglySorted (fun a b => in_cylinder radius_xy z_window a b = false)
    blobs ->
  suppress_close_blobs_by_intensity blobs radius_xy z_window
  = sort_by_intensity blobs.
Proof.
  intros Hs. unfold suppress_close_blobs_by_intensity.
  destruct (length blobs =? 0)%nat eqn:E.
  - apply Nat.eqb_eq, nil_length_inv in E. subst.
    symmetry. apply Permutation_nil_r. apply sort_by_intensity_perm.
  - rewrite proximity_outer_id; [apply boolean_index_all_true|].
    eapply StronglySorted_symmetric_perm; [| |exact Hs].
    + intros a b. by rewrite in_cylinder_sym.
    + symmetry. apply sort_by_intensity_perm.
Qed.

(** C1: after suppress_close_blobs_by_intensity, no two surviving blobs
    (two different positions of the output) lie within [z_window] of
    each other in Z and within [radius_xy] of each other in XY. *)
Theorem proximity_no_close_survivors (srt : ArgSort) (blobs : list blob)
    (radius_xy z_window : Q) (p q : nat) (a b : blob) :
  p <> q ->
  suppress_close_blobs_by_intensity blobs radius_xy z_window !! p = Some a ->
  suppress_close_blobs_by_intensity blobs radius_xy z_window !! q = Some b ->
  ~ ((Qabs (blob_z a - blob_z b) <= z_window)%Q /\
     ((blob_y a - blob_y b) ^ 2 + (blob_x a - blob_x b) ^ 2
      <= radius_xy ^ 2)%Q).
Proof.
  intros Hpq Ha Hb Hnear. apply in_cylinder_true in Hnear.
  pose proof (suppress_close_pairwise blobs radius_xy z_window) as Hs.
  destruct (Nat.lt_total p q) as [Hlt|[?|Hlt]]; [|done|].
  - pose proof (StronglySorted_lookup _ _ p q a b Hs Hlt Ha Hb) as Hfar.
    simpl in Hfar. congruence.
  - pose proof (StronglySorted_lookup _ _ q p b a Hs Hlt Hb Ha) as Hfar.
    simpl in Hfar. rewrite in_cylinder_sym in Hfar. congruence.
Qed.

Lemma proximity_no_close_survivors_witness :
  0%nat <> 1%nat /\
  @suppress_close_blobs_by_intensity stable_sort [far_a; far_b; far_c] 10 2
    !! 0%nat = Some far_b /\
  @suppress_close_blobs_by_intensity stable_sort [far_a; far_b; far_c] 10 2
    !! 1%nat = Some far_c /\
  ~ ((Qabs (blob_z far_b - blob_z far_c) <= 2)%Q /\
     ((blob_y far_b - blob_y far_c) ^ 2 + (blob_x far_b - blob_x far_c) ^ 2
      <= 10 ^ 2)%Q).
Proof.
  assert (H0 : 0%nat <> 1%nat) by lia.
  assert (Ha : @suppress_close_blobs_by_intensity stable_sort
                 [far_a; far_b; far_c] 10 2 !! 0%nat = Some far_b)
    by reflexivity.
  assert (Hb : @suppress_close_blobs_by_intensity stable_sort
                 [far_a; far_b; far_c] 10 2 !! 1%nat = Some far_c)
    by reflexivity.
  repeat split; try assumption.
  exact (proximity_no_close_survivors stable_sort [far_a; far_b; far_c]
           10 2 0 1 far_b far_c H0 Ha Hb).
Defined.

(** ** Processing priority *)

Lemma Qltb_opp (p q : Q) : Qltb (- q) (- p) = Qltb p q.
Proof.
  apply eq_true_iff_eq. rewrite !Qltb_lt. split; intros H.
  - apply Qopp_lt_compat in H. by rewrite !Qopp_involutive in H.
  - by apply Qopp_lt_compat.
Qed.

Lemma key_le_fneg (a b : f64) : key_le (fneg a) (fneg b) = intensity_ge a b.
Proof.
  destruct a as [p| | |], b as [q| | |]; try reflexivity.
  simpl. by rewrite Qltb_opp.
Qed.

Lemma fancy_index_sorted {A} (R : A -> A -> Prop) (Ri : nat -> nat -> Prop)
    (l : list A) (indices : list nat) :
  (forall i j a b, l !! i = Some a -> l !! j = Some b -> Ri i j -> R a b) ->
  StronglySorted Ri indices -> StronglySorted R (fancy_index l indices).
Proof.
  intros HR. unfold fancy_index.
  induction 1 as [|i idx Hs IH Hall]; simpl; [constructor|].
  destruct (l !! i) as [a|] eqn:Ha; [|assumption].
  constructor; [assumption|].
  rewrite Forall_forall in Hall. apply Forall_forall. intros b Hb.
  apply list_elem_of_omap in Hb as (j & Hj & Hlj).
  eapply HR; [exact Ha|exact Hlj|]. by apply Hall.
Qed.

Lemma sort_by_intensity_descending `{ArgSort} (blobs : list blob) :
  StronglySorted descending (sort_by_intensity blobs).
Proof.
  unfold sort_by_intensity.
  eapply fancy_index_sorted; [|apply argsort_sorted].
  intros i j a b Ha Hb. unfold key_at.
  rewrite !list_lookup_fmap, Ha, Hb. simpl.
  unfold sort_key. by rewrite key_le_fneg.
Qed.



(** ** Running the ProximitySuppressor twice *)

Lemma StronglySorted_impl_elem {A} (R R' : A -> A -> Prop) (l : list A) :
  (forall a b, a ∈ l -> b ∈ l -> R a b -> R' a b) ->
  StronglySorted R l -> StronglySorted R' l.
Proof.
  intros HR Hs. induction Hs as [|a l Hs IH Hall]; [constructor|].
  constructor.
  - apply IH. intros u v Hu Hv. apply HR; by apply elem_of_cons; right.
  - rewrite Forall_forall in Hall. apply Forall_forall. intros v Hv.
    apply HR; [by apply elem_of_cons; left|by apply elem_of_cons; right|].
    by apply Hall.
Qed.

Lemma StronglySorted_seq (m n : nat) : StronglySorted le (seq m n).
Proof.
  revert m. induction n as [|n IH]; intros m; simpl; constructor; [apply IH|].
  apply Forall_forall. intros j Hj%elem_of_seq. lia.
Qed.



(** a stable sort leaves keys that are already in order in place *)
Lemma stable_argsort_from (keys : list f64) (m k : nat) :
  (forall i j, (m <= i)%nat -> (i < j)%nat -> (j < m + k)%nat ->
     key_le (key_at keys i) (key_at keys j) = true) ->
  fold_right (insert_index key_le keys) [] (seq m k) = seq m k.
Proof.
  revert m. induction k as [|k IH]; intros m Hs; [reflexivity|].
  simpl. rewrite IH by (intros i j ? ? ?; apply Hs; lia).
  destruct k as [|k]; [reflexivity|]. simpl.
  by rewrite Hs by lia.
Qed.

Lemma stable_argsort_sorted_id (keys : list f64) :
  StronglySorted (fun a b => key_le a b = true) keys ->
  stable_argsort keys = seq 0 (length keys).
Proof.
  intros Hs. apply stable_argsort_from. intros i j _ Hij Hj.
  destruct (lookup_lt_is_Some_2 keys i) as [ki Hki]; [lia|].
  destruct (lookup_lt_is_Some_2 keys j) as [kj Hkj]; [simpl in Hj; lia|].
  unfold key_at. rewrite Hki, Hkj. simpl.
  by apply (StronglySorted_lookup _ keys i j ki kj Hs).
Qed.

Lemma descending_keys_sorted (blobs : list blob) :
  StronglySorted descending blobs ->
  StronglySorted (fun a b => key_le a b = true) (map sort_key blobs).
Proof.
  induction 1 as [|a l Hs IH Hall]; simpl; constructor; [assumption|].
  apply Forall_fmap. eapply Forall_impl; [exact Hall|].
  intros b Hb. simpl. unfold sort_key. by rewrite key_le_fneg.
Qed.

(** the second run only sorts again *)
Lemma suppress_close_rerun `{ArgSort} (blobs : list blob)
    (radius_xy z_window : Q) :
  let out := suppress_close_blobs_by_intensity blobs radius_xy z_window in
  suppress_close_blobs_by_intensity out radius_xy z_window
  = sort_by_intensity out.
Proof. apply suppress_close_far_input. apply suppress_close_pairwise. Qed.

(** with the stable sort the second run returns its input *)
Lemma suppress_close_rerun_stable (blobs : list blob) (radius_xy z_window : Q) :
  let out :=
    @suppress_close_blobs_by_intensity stable_sort blobs radius_xy z_window in
  @suppress_close_blobs_by_intensity stable_sort out radius_xy z_window = out.
Proof.
  intros out. unfold out at 1. rewrite suppress_close_rerun. fold out.
  unfold sort_by_intensity. simpl argsort.
  rewrite stable_argsort_sorted_id.
  - rewrite length_map. apply fancy_index_seq.
  - apply descending_keys_sorted.
    eapply StronglySorted_sublist; [apply suppress_close_sublist|].
    apply sort_by_intensity_descending.
Qed.




(** ** Every stage keeps a record as it is or drops it *)

Lemma list_filter_sublist {A} (f : A -> bool) (l : list A) :
  List.filter f l `sublist_of` l.
Proof.
  induction l as [|a l IH]; simpl; [constructor|].
  destruct (f a); [by apply sublist_skip|by apply sublist_cons].
Qed.

Lemma elem_of_list_filter {A} (f : A -> bool) (l : list A) (a : A) :
  a ∈ List.filter f l <-> a ∈ l /\ f a = true.
Proof. rewrite !list_elem_of_In. apply filter_In. Qed.

Lemma suppress_close_submseteq `{ArgSort} (blobs : list blob)
    (radius_xy z_window : Q) :
  suppress_close_blobs_by_intensity blobs radius_xy z_window ⊆+ blobs.
Proof.
  rewrite <- (sort_by_intensity_perm blobs) at 2.
  apply sublist_submseteq, suppress_close_sublist.
Qed.

Lemma suppress_bridge_submseteq `{ArgSort}
    (line_nd : point -> point -> list point) (blobs : list blob)
    (image : Volume) (radius_xy z_window dip_threshold : Q)
    (out : list blob) :
  suppress_blobs_by_bridge_intensity line_nd blobs image radius_xy z_window
    dip_threshold = Ok out ->
  out ⊆+ blobs.
Proof.
  unfold suppress_blobs_by_bridge_intensity.
  destruct (length blobs =? 0)%nat; [by intros [= ->]|].
  destruct (bridge_outer _ _ _ _ _ _ _ _) as [keep|e]; [|done].
  intros [= <-]. rewrite <- (sort_by_intensity_perm blobs) at 2.
  apply sublist_submseteq, boolean_index_sublist.
Qed.

(** C9: each suppression and filter stage returns records of its input,
    each at most as often as the input has it, with all five fields as
    they were; nothing is added and no record is altered.  The two
    filters on the volume and the mask filter also keep the input
    order. *)
Theorem stages_keep_or_drop (srt : ArgSort)
    (line_nd : point -> point -> list point)
    (binary_erosion : Mask -> Z -> Z -> Z -> Z -> bool)
    (image : Volume) (original_mask : Mask) (blobs : list blob)
    (radius_xy z_window dip_threshold ratio_threshold drop_factor : Q)
    (region_size erosion_iterations : Z) :
  suppress_close_blobs_by_intensity blobs radius_xy z_window ⊆+ blobs /\
  match suppress_blobs_by_bridge_intensity line_nd blobs image radius_xy
          z_window dip_threshold with
  | Ok out => out ⊆+ blobs
  | Raise _ => True
  end /\
  filter_blobs_by_local_intensity image blobs region_size ratio_threshold
    `sublist_of` blobs /\
  filter_blobs_by_sharpness blobs image drop_factor `sublist_of` blobs /\
  fst (filter_blobs_outside_eroded_mask binary_erosion blobs original_mask
         erosion_iterations) `sublist_of` blobs.
Proof.
  repeat split.
  - apply suppress_close_submseteq.
  - destruct (suppress_blobs_by_bridge_intensity _ _ _ _ _ _) as [out|e] eqn:E;
      [|done].
    by eapply suppress_bridge_submseteq.
  - apply list_filter_sublist.
  - apply list_filter_sublist.
  - apply list_filter_sublist.
Qed.

(** ** MaskBoundaryFilter *)

(** C7: filter_blobs_outside_eroded_mask returns the eroded mask, and
    keeps a blob exactly when its rounded voxel is inside the array on
    all three axes and not in the ring (in the mask, not in the eroded
    mask).  So a blob inside the eroded mask is kept, a blob in the ring
    is dropped and a blob outside the array is dropped. *)
Theorem mask_boundary_rule
    (binary_erosion : Mask -> Z -> Z -> Z -> Z -> bool)
    (blobs : list blob) (original_mask : Mask) (erosion_iterations : Z)
    (b : blob) :
  let res := filter_blobs_outside_eroded_mask binary_erosion blobs
               original_mask erosion_iterations in
  let '(z, y, x) := blob_voxel b in
  let inside := 0 <= z < mshape0 original_mask
                /\ 0 <= y < mshape1 original_mask
                /\ 0 <= x < mshape2 original_mask in
  let eroded := binary_erosion original_mask erosion_iterations z y x in
  let ring := mvoxel original_mask z y x && negb eroded in
  snd res = erode binary_erosion original_mask erosion_iterations /\
  (b ∈ fst res <-> b ∈ blobs /\ inside /\ ring = false) /\
  (b ∈ blobs -> inside -> eroded = true -> b ∈ fst res) /\
  (ring = true -> b ∉ fst res) /\
  (~ inside -> b ∉ fst res).
Proof.
  destruct (blob_voxel b) as [[z y] x] eqn:Hv. simpl.
  assert (Hiff :
    b ∈ List.filter
          (eroded_mask_keeps original_mask
             (erode binary_erosion original_mask erosion_iterations)) blobs
    <-> b ∈ blobs
        /\ (0 <= z < mshape0 original_mask
            /\ 0 <= y < mshape1 original_mask
            /\ 0 <= x < mshape2 original_mask)
        /\ mvoxel original_mask z y x
           && negb (binary_erosion original_mask erosion_iterations z y x)
           = false).
  { rewrite elem_of_list_filter. unfold eroded_mask_keeps. rewrite Hv.
    simpl. rewrite !andb_true_iff, negb_true_iff.
    rewrite !Z.leb_le, !Z.ltb_lt. tauto. }
  split; [reflexivity|]. split; [exact Hiff|]. repeat split.
  - intros Hb Hin He. apply Hiff. rewrite He, andb_false_r. tauto.
  - intros Hr Hk. apply Hiff in Hk. destruct Hk as (_ & _ & Hk). congruence.
  - intros Hout Hk. apply Hiff in Hk. tauto.
Qed.

(** ** Slices that stay inside the array *)

Lemma slice_range_inside (n s e : Z) :
  0 <= s -> s <= e -> e <= n -> slice_range n s e = zrange s e.
Proof.
  intros Hs Hse Hen. unfold slice_range, slice_bound.
  destruct (s <? 0) eqn:E1; [apply Z.ltb_lt in E1; lia|].
  destruct (e <? 0) eqn:E2; [apply Z.ltb_lt in E2; lia|].
  by rewrite !Z.min_l by lia.
Qed.

Lemma zrange_length (a b : Z) : length (zrange a b) = Z.to_nat (b - a).
Proof. unfold zrange. by rewrite length_map, length_seq. Qed.

Lemma zrange_3 (a : Z) : zrange a (a + 3) = [a; a + 1; a + 2].
Proof.
  unfold zrange. replace (a + 3 - a) with 3 by lia. simpl.
  f_equal. lia.
Qed.

Lemma flat_map_const_length {A B} (f : A -> list B) (l : list A) (k : nat) :
  (forall a, length (f a) = k) ->
  length (flat_map f l) = (length l * k)%nat.
Proof.
  intros Hk. induction l as [|a l IH]; simpl; [done|].
  by rewrite length_app, Hk, IH.
Qed.



(** ** LocalContrastFilter *)


(** ** detect_blob_intensities *)

Lemma patch2d_window3 (image : Volume) (z y x : Z) :
  1 <= y < shape1 image - 1 -> 1 <= x < shape2 image - 1 ->
  patch2d image z (y - 1) (y + 2) (x - 1) (x + 2) = window3 image z y x.
Proof.
  intros Hy Hx. unfold patch2d. rewrite !slice_range_inside by lia.
  replace (y + 2) with (y - 1 + 3) by lia.
  replace (x + 2) with (x - 1 + 3) by lia.
  rewrite !zrange_3. unfold window3. simpl.
  replace (y - 1 + 1) with y by lia. replace (x - 1 + 1) with x by lia.
  replace (y - 1 + 2) with (y + 1) by lia.
  replace (x - 1 + 2) with (x + 1) by lia.
  reflexivity.
Qed.


(** ** BridgeSuppressor: the rule for one pair *)


Section BridgeFacts.
Variable line_nd : point -> point -> list point.
Variable image : Volume.
Variables radius_xy z_window dip_threshold : Q.
Variable bs : list blob.

Local Abbreviation inner :=
  (bridge_inner line_nd image radius_xy z_window dip_threshold bs).

(** the pair test, once both gates are passed and the ratio is above
    the threshold *)
Lemma bridge_inner_no_dip (i j : nat) (js : list nat) (keep : list bool)
    (blob1 blob2 : blob) (min_val : Q) :
  keep !! j = Some true -> bs !! j = Some blob2 ->
  (Qabs (blob_z blob2 - blob_z blob1) <= z_window)%Q ->
  ((blob_y blob2 - blob_y blob1) ^ 2 + (blob_x blob2 - blob_x blob1) ^ 2
   <= radius_xy ^ 2)%Q ->
  bridge_min line_nd image blob1 blob2 = Ok min_val ->
  fgt (dip_ratio min_val (blob_intensity blob1) (blob_intensity blob2))
      (Fin dip_threshold) = true ->
  inner i blob1 (j :: js) keep =
  if fgt (blob_intensity blob1) (blob_intensity blob2)
  then inner i blob1 js (<[j := false]> keep)
  else Ok (<[i := false]> keep).
Proof.
  intros Hk Hb Hz Hxy Hmin Hdip. cbn [bridge_inner]. rewrite Hk, Hb.
  apply Qltb_ge in Hz. apply Qltb_ge in Hxy.
  rewrite Hz, Hxy, Hmin, Hdip. reflexivity.
Qed.

(** a pair outside one of the gates is passed over *)
Lemma bridge_inner_gated (i j : nat) (js : list nat) (keep : list bool)
    (blob1 blob2 : blob) :
  bs !! j = Some blob2 ->
  (z_window < Qabs (blob_z blob2 - blob_z blob1))%Q \/
  (radius_xy ^ 2 <
   (blob_y blob2 - blob_y blob1) ^ 2 + (blob_x blob2 - blob_x blob1) ^ 2)%Q ->
  inner i blob1 (j :: js) keep = inner i blob1 js keep.
Proof.
  intros Hb Hgate. cbn [bridge_inner]. rewrite Hb.
  destruct (keep !! j) as [[]|]; try reflexivity.
  destruct (Qltb z_window _) eqn:Ez; [reflexivity|].
  destruct Hgate as [Hz|Hxy].
  - apply Qltb_lt in Hz. congruence.
  - apply Qltb_lt in Hxy. by rewrite Hxy.
Qed.
End BridgeFacts.



(** ** BridgeSuppressor: two peaks with no dip between them *)

Lemma sort_by_intensity_pair `{ArgSort} (blobs : list blob) (a b : blob) :
  blobs ≡ₚ [a; b] -> strictly_descending a b ->
  sort_by_intensity blobs = [a; b].
Proof.
  intros Hp Hab.
  assert (Hs : [a; b] ≡ₚ sort_by_intensity blobs).
  { by rewrite sort_by_intensity_perm. }
  apply Permutation_length_2_inv in Hs as [E|E]; [done|].
  pose proof (sort_by_intensity_descending blobs) as Hd. rewrite E in Hd.
  inversion Hd as [|? ? _ Hall]; subst.
  inversion Hall as [|? ? Hba _]; subst.
  unfold descending, strictly_descending in *. congruence.
Qed.

(** C5, refuted as stated: two peaks 30 px apart with intensities 200
    and 190 (average 195), minimum 190 on the line between them; with
    radius_xy = 20 and dip_threshold = 0.5 both are returned. *)
Lemma bridge_radius_20_keeps_both :
  ((blob_y peak_b - blob_y peak_a) ^ 2 + (blob_x peak_b - blob_x peak_a) ^ 2
   == 30 ^ 2)%Q /\
  bridge_min line_nd_skimage bridge_image peak_a peak_b = Ok 190%Q /\
  (avg_peak (blob_intensity peak_a) (blob_intensity peak_b) = Fin (390 # 2)) /\
  @suppress_blobs_by_bridge_intensity stable_sort line_nd_skimage
    [peak_a; peak_b] bridge_image 20 4 (1 # 2) = Ok [peak_a; peak_b].
Proof. repeat split. Qed.

(** C5, amended: for two peaks 30 px apart in XY, the stronger [a] and
    the weaker [b], with average intensity 195 and dip_threshold = 0.5:
    with radius_xy = 20 the pair fails the XY gate and both are
    returned; with radius_xy of 30 or more and the pair within z_window,
    a line minimum of 190 makes the suppressor drop the weaker peak. *)
Theorem bridge_scenario (srt : ArgSort)
    (line_nd : point -> point -> list point) (image : Volume)
    (blobs : list blob) (a b : blob) (ia ib radius_xy z_window : Q) :
  blobs ≡ₚ [a; b] ->
  blob_intensity a = Fin ia -> blob_intensity b = Fin ib ->
  (ib < ia)%Q -> ((ia + ib) / 2 == 195)%Q ->
  ((blob_y b - blob_y a) ^ 2 + (blob_x b - blob_x a) ^ 2 == 30 ^ 2)%Q ->
  ((radius_xy == 20)%Q ->
   suppress_blobs_by_bridge_intensity line_nd blobs image radius_xy z_window
     (1 # 2) = Ok [a; b]) /\
  ((30 <= radius_xy)%Q ->
   (Qabs (blob_z b - blob_z a) <= z_window)%Q ->
   forall min_val : Q,
     bridge_min line_nd image a b = Ok min_val -> (min_val == 190)%Q ->
     suppress_blobs_by_bridge_intensity line_nd blobs image radius_xy
       z_window (1 # 2) = Ok [a]).
Proof.
  intros Hp Ha Hb Hlt Havg Hdist.
  assert (Hsort : sort_by_intensity blobs = [a; b]).
  { apply sort_by_intensity_pair; [done|].
    unfold strictly_descending. rewrite Ha, Hb. simpl.
    apply negb_false_iff. by apply Qltb_lt. }
  assert (Hlen : (length blobs =? 0)%nat = false).
  { apply Nat.eqb_neq. by rewrite (Permutation_length Hp). }
  unfold suppress_blobs_by_bridge_intensity. rewrite Hlen, Hsort.
  cbn [length replicate seq Nat.sub bridge_outer].
  assert (Hstep : bridge_step line_nd image radius_xy z_window (1 # 2)
                    [a; b] [true; true] 0
                  = bridge_inner line_nd image radius_xy z_window (1 # 2)
                      [a; b] 0 a [1%nat] [true; true]) by reflexivity.
  rewrite Hstep. clear Hstep.
  split.
  - intros Hr.
    rewrite bridge_inner_gated with (blob2 := b); [|reflexivity|].
    + reflexivity.
    + right. rewrite Hdist, Hr. reflexivity.
  - intros Hr Hz min_val Hmin Hm.
    rewrite bridge_inner_no_dip with (blob2 := b) (min_val := min_val);
      try done.
    + rewrite Ha, Hb. unfold fgt. simpl flt.
      apply Qltb_lt in Hlt. rewrite Hlt. reflexivity.
    + rewrite Hdist. simpl. nra.
    + rewrite Ha, Hb. unfold dip_ratio, avg_peak, fgt. simpl.
      assert (Hnz : Qis_zero ((ia + ib) / 2) = false).
      { apply not_true_iff_false. rewrite Qis_zero_eq, Havg. discriminate. }
      rewrite Hnz. simpl. apply Qltb_lt. rewrite Havg, Hm. reflexivity.
Qed.

Lemma bridge_scenario_witness :
  [peak_b; peak_a] ≡ₚ [peak_a; peak_b] /\
  blob_intensity peak_a = Fin 200 /\ blob_intensity peak_b = Fin 190 /\
  (190 < 200)%Q /\ ((200 + 190) / 2 == 195)%Q /\
  ((blob_y peak_b - blob_y peak_a) ^ 2 + (blob_x peak_b - blob_x peak_a) ^ 2
   == 30 ^ 2)%Q /\
  @suppress_blobs_by_bridge_intensity stable_sort line_nd_skimage
    [peak_b; peak_a] bridge_image 20 4 (1 # 2) = Ok [peak_a; peak_b] /\
  @suppress_blobs_by_bridge_intensity stable_sort line_nd_skimage
    [peak_b; peak_a] bridge_image 30 4 (1 # 2) = Ok [peak_a].
Proof.
  assert (Hp : [peak_b; peak_a] ≡ₚ [peak_a; peak_b]) by apply Permutation_swap.
  assert (Ha : blob_intensity peak_a = Fin 200) by reflexivity.
  assert (Hb : blob_intensity peak_b = Fin 190) by reflexivity.
  assert (Hlt : (190 < 200)%Q) by reflexivity.
  assert (Havg : ((200 + 190) / 2 == 195)%Q) by reflexivity.
  assert (Hd : ((blob_y peak_b - blob_y peak_a) ^ 2
                + (blob_x peak_b - blob_x peak_a) ^ 2 == 30 ^ 2)%Q)
    by reflexivity.
  pose proof (bridge_scenario stable_sort line_nd_skimage bridge_image
                [peak_b; peak_a] peak_a peak_b 200 190) as Hthm.
  refine (conj Hp (conj Ha (conj Hb (conj Hlt (conj Havg (conj Hd _)))))).
  split.
  - apply (Hthm 20%Q 4%Q Hp Ha Hb Hlt Havg Hd). reflexivity.
  - apply (proj2 (Hthm 30%Q 4%Q Hp Ha Hb Hlt Havg Hd)) with (min_val := 190%Q).
    + apply Qle_bool_iff. reflexivity.
    + apply Qle_bool_iff. reflexivity.
    + reflexivity.
    + reflexivity.
Defined.

(** ** Detector: the threshold when the volume's maximum is zero *)

Lemma Qinsert_not_nil (v : Q) (l : list Q) : Qinsert v l <> [].
Proof. destruct l as [|w l]; simpl; [done|]. by destruct (Qle_bool v w). Qed.

Lemma Qinsert_Forall (P : Q -> Prop) (v : Q) (l : list Q) :
  P v -> Forall P l -> Forall P (Qinsert v l).
Proof.
  intros Hv. induction 1 as [|w l Hw Hl IH]; simpl.
  - by constructor.
  - destruct (Qle_bool v w); repeat constructor; auto.
Qed.

Lemma Qsort_Forall (P : Q -> Prop) (l : list Q) :
  Forall P l -> Forall P (Qsort l).
Proof.
  induction 1 as [|v l Hv Hl IH]; simpl; [constructor|].
  by apply Qinsert_Forall.
Qed.

Lemma Forall_nth_default {A} (P : A -> Prop) (l : list A) (d : A) (n : nat) :
  P d -> Forall P l -> P (nth n l d).
Proof.
  intros Hd Hl. revert n. induction Hl as [|a l Ha Hl IH]; intros [|n];
    simpl; auto.
Qed.

Lemma signed_inf_not_finite (q : Q) : is_finite (signed_inf q) = false.
Proof.
  unfold signed_inf. destruct (Qis_zero q); [done|]. by destruct (Qltb 0 q).
Qed.

Lemma fdiv_zero_not_finite (p m : Q) :
  (m == 0)%Q -> is_finite (fdiv (Fin p) (Fin m)) = false.
Proof.
  intros Hm. apply Qis_zero_eq in Hm. simpl. rewrite Hm.
  apply signed_inf_not_finite.
Qed.

(** on a volume with a voxel and a valid percentile, [np.percentile] is
    a finite number *)
Lemma np_percentile_finite (values : list Q) (q : Q) :
  values <> [] -> (0 <= q)%Q -> (q <= 100)%Q ->
  exists p, np_percentile values q = Ok (Fin p) /\
            (Forall (fun v => v == 0)%Q values -> (p == 0)%Q).
Proof.
  intros Hne H0 H100. unfold np_percentile.
  apply Qle_bool_iff in H0, H100. rewrite H0, H100. simpl.
  destruct (Qsort values) as [|a0 a] eqn:E.
  - destruct values as [|v vs]; [done|]. simpl in E.
    by apply Qinsert_not_nil in E.
  - eexists. split; [reflexivity|]. intros Hz.
    apply (Qsort_Forall _ _) in Hz. rewrite E in Hz.
    assert (Ha0 : (a0 == 0)%Q) by (by inversion Hz).
    pose proof (fun n => Forall_nth_default _ _ a0 n Ha0 Hz) as Hn.
    cbv zeta. rewrite !Hn. ring.
Qed.

(** C2, refuted as stated: on a volume of zeros the threshold is
    resolved without an error, to NaN in percentile mode and to +inf in
    absolute mode. *)
Lemma zero_volume_threshold_not_an_error :
  np_max (ravel zero_volume) = Ok 0%Q /\
  detect_blobs_threshold zero_volume "percentile" (995 # 10) = Ok NaN /\
  detect_blobs_threshold zero_volume "absolute" 5 = Ok PInf.
Proof. repeat split. Qed.

(** C2, amended: when the volume's maximum is zero the threshold
    resolution of detect_blobs raises nothing, in percentile mode (a
    percentile within [0, 100]) as in absolute mode: the division gives
    NaN or an infinity, NaN on a volume of zeros in percentile mode, and
    that value is the threshold [blob_log] is called with. *)
Theorem threshold_zero_max_not_finite (image : Volume) (threshold_value m : Q) :
  np_max (ravel image) = Ok m -> (m == 0)%Q ->
  ((0 <= threshold_value)%Q -> (threshold_value <= 100)%Q ->
   exists t,
     detect_blobs_threshold image "percentile" threshold_value = Ok t /\
     is_finite t = false /\
     (Forall (fun v => v == 0)%Q (ravel image) -> t = NaN) /\
     forall blob_log min_sigma max_sigma num_sigma,
       detect_blobs blob_log image min_sigma max_sigma num_sigma
         "percentile" threshold_value
       = detect_blobs_with blob_log image min_sigma max_sigma num_sigma t) /\
  (exists t,
     detect_blobs_threshold image "absolute" threshold_value = Ok t /\
     is_finite t = false /\
     forall blob_log min_sigma max_sigma num_sigma,
       detect_blobs blob_log image min_sigma max_sigma num_sigma
         "absolute" threshold_value
       = detect_blobs_with blob_log image min_sigma max_sigma num_sigma t).
Proof.
  intros Hmax Hm. split.
  - intros H0 H100.
    assert (Hne : ravel image <> []).
    { intros E. rewrite E in Hmax. discriminate. }
    destruct (np_percentile_finite _ _ Hne H0 H100) as (p & Hp & Hpz).
    assert (Ht : detect_blobs_threshold image "percentile" threshold_value
                 = Ok (fdiv (Fin p) (Fin m))).
    { unfold detect_blobs_threshold. simpl String.eqb. by rewrite Hp, Hmax. }
    exists (fdiv (Fin p) (Fin m)). split; [exact Ht|]. split; [|split].
    + by apply fdiv_zero_not_finite.
    + intros Hz. apply Hpz in Hz. apply Qis_zero_eq in Hz, Hm.
      simpl. rewrite Hm. unfold signed_inf. by rewrite Hz.
    + intros. unfold detect_blobs. by rewrite Ht.
  - assert (Ht : detect_blobs_threshold image "absolute" threshold_value
                 = Ok (fdiv (Fin threshold_value) (Fin m))).
    { unfold detect_blobs_threshold. simpl String.eqb. by rewrite Hmax. }
    exists (fdiv (Fin threshold_value) (Fin m)). split; [exact Ht|]. split.
    + by apply fdiv_zero_not_finite.
    + intros. unfold detect_blobs. by rewrite Ht.
Qed.

Lemma threshold_zero_max_not_finite_witness :
  np_max (ravel zero_volume) = Ok 0%Q /\ (0 == 0)%Q /\
  exists t,
    detect_blobs_threshold zero_volume "absolute" 5 = Ok t /\
    is_finite t = false.
Proof.
  assert (Hmax : np_max (ravel zero_volume) = Ok 0%Q) by reflexivity.
  assert (Hm : (0 == 0)%Q) by reflexivity.
  refine (conj Hmax (conj Hm _)).
  destruct (proj2 (threshold_zero_max_not_finite zero_volume 5 0 Hmax Hm))
    as (t & Ht & Hfin & _).
  exists t. by split.
Defined.


Lemma mask_boundary_rule_witness :
  inner_blob ∈ fst (filter_blobs_outside_eroded_mask binary_erosion_faces
                      [inner_blob; ring_blob] cube_mask 1) /\
  ring_blob ∉ fst (filter_blobs_outside_eroded_mask binary_erosion_faces
                     [inner_blob; ring_blob] cube_mask 1).
Proof.
  split.
  - pose proof (mask_boundary_rule binary_erosion_faces
                  [inner_blob; ring_blob] cube_mask 1 inner_blob)
      as (_ & _ & Hin & _).
    apply Hin.
    + apply list_elem_of_here.
    + vm_compute. intuition (discriminate || reflexivity).
    + reflexivity.
  - pose proof (mask_boundary_rule binary_erosion_faces
                  [inner_blob; ring_blob] cube_mask 1 ring_blob)
      as (_ & _ & _ & Hring & _).
    apply Hring. reflexivity.
Defined.



(** * Further properties of the stages *)

(** ** SharpnessFilter *)




(** ** MaskBoundaryFilter: blobs outside the mask *)

(** X2: filter_blobs_outside_eroded_mask keeps every blob whose rounded
    voxel is inside the array but outside the original mask: only the
    ring between the mask and its erosion is removed, so the result is
    not limited to blobs inside the eroded mask. *)
Theorem mask_filter_keeps_outside_mask
    (binary_erosion : Mask -> Z -> Z -> Z -> Z -> bool)
    (blobs : list blob) (original_mask : Mask) (erosion_iterations : Z)
    (b : blob) (z y x : Z) :
  b ∈ blobs -> blob_voxel b = (z, y, x) ->
  0 <= z < mshape0 original_mask ->
  0 <= y < mshape1 original_mask ->
  0 <= x < mshape2 original_mask ->
  mvoxel original_mask z y x = false ->
  b ∈ fst (filter_blobs_outside_eroded_mask binary_erosion blobs
             original_mask erosion_iterations).
Proof.
  intros Hb Hv Hz Hy Hx Hm. simpl. apply elem_of_list_filter.
  split; [done|]. unfold eroded_mask_keeps. rewrite Hv. simpl.
  rewrite Hm. simpl. rewrite !andb_true_iff, !Z.leb_le, !Z.ltb_lt. lia.
Qed.

Lemma mask_filter_keeps_outside_mask_witness :
  inner_blob ∈ fst (filter_blobs_outside_eroded_mask binary_erosion_faces
                      [inner_blob] hollow_mask 1).
Proof.
  apply (mask_filter_keeps_outside_mask binary_erosion_faces [inner_blob]
           hollow_mask 1 inner_blob 2 2 2).
  - apply list_elem_of_here.
  - reflexivity.
  - simpl. lia.
  - simpl. lia.
  - simpl. lia.
  - reflexivity.
Defined.

(** ** ProximitySuppressor: which blobs go *)

Lemma boolean_index_elem {A} (l : list A) (mask : list bool) (j : nat)
    (v : A) :
  l !! j = Some v -> mask !! j = Some true -> v ∈ boolean_index l mask.
Proof.
  revert mask j. induction l as [|a l IH]; intros [|k mask] [|j]; simpl;
    try done.
  - intros [= ->] [= ->]. apply list_elem_of_here.
  - intros Hl Hm. destruct k; [apply list_elem_of_further|]; by eapply IH.
Qed.

Section ProximityDrops.
Variables radius_xy z_window : Q.
Variable bs : list blob.

Local Abbreviation inner := (proximity_inner radius_xy z_window bs).
Local Abbreviation step := (proximity_step radius_xy z_window bs).
Local Abbreviation outer := (proximity_outer radius_xy z_window bs).
Local Abbreviation near := (in_cylinder radius_xy z_window).

(** a position cleared by the inner loop was visited and in the
    cylinder *)
Lemma proximity_inner_cleared (b0 : blob) (js : list nat) (keep : list bool)
    (t : nat) :
  keep !! t = Some true -> inner b0 js keep !! t = Some false ->
  exists b1, t ∈ js /\ bs !! t = Some b1 /\ near b0 b1 = true.
Proof.
  revert keep. induction js as [|j js IH]; intros keep Hk; simpl.
  { congruence. }
  intros Hf.
  destruct (proximity_visit radius_xy z_window bs b0 keep j !! t)
    as [[]|] eqn:Hv.
  - destruct (IH _ Hv Hf) as (b1 & ? & ? & ?).
    exists b1. split; [by apply list_elem_of_further|done].
  - rewrite proximity_visit_lookup in Hv.
    destruct (decide (t = j)) as [->|]; [|congruence].
    rewrite Hk in Hv. destruct (bs !! j) as [b1|] eqn:Hb; [|congruence].
    exists b1. split; [apply list_elem_of_here|]. split; [done|].
    injection Hv as Hv. by apply negb_false_iff.
  - apply lookup_ge_None in Hv. rewrite proximity_visit_length in Hv.
    apply lookup_lt_Some in Hk. lia.
Qed.

(** a position cleared by the scan is in the cylinder of an earlier
    position that is kept to the end *)
Lemma proximity_outer_cleared (m k : nat) (keep : list bool) (j : nat) :
  keep !! j = Some true -> outer (seq m k) keep !! j = Some false ->
  exists i a b, (m <= i)%nat /\ (i < j)%nat /\
    bs !! i = Some a /\ bs !! j = Some b /\
    outer (seq m k) keep !! i = Some true /\ near a b = true.
Proof.
  revert m keep. induction k as [|k IH]; intros m keep Hk; simpl.
  { congruence. }
  intros Hf.
  destruct (step keep m !! j) as [[]|] eqn:Hs.
  - destruct (IH _ _ Hs Hf) as (i & a & b & ? & ? & ? & ? & ? & ?).
    exists i, a, b. repeat split; auto with lia.
  - unfold proximity_step in Hs.
    destruct (keep !! m) as [[]|] eqn:Hm; try congruence.
    destruct (bs !! m) as [b0|] eqn:Hb0; [|congruence].
    destruct (proximity_inner_cleared b0 _ keep j Hk Hs)
      as (b1 & Hj & Hb1 & Hnear).
    apply elem_of_seq in Hj.
    exists m, b0, b1. repeat split; auto with lia.
    rewrite proximity_outer_low by lia.
    by rewrite proximity_step_low by lia.
  - apply lookup_ge_None in Hs. rewrite proximity_step_length in Hs.
    apply lookup_lt_Some in Hk. lia.
Qed.

Lemma proximity_outer_length (idx : list nat) (keep : list bool) :
  length (outer idx keep) = length keep.
Proof.
  revert keep. induction idx as [|i idx IH]; intros keep; simpl; [done|].
  by rewrite IH, proximity_step_length.
Qed.
End ProximityDrops.

Lemma descending_refl (a : blob) : descending a a.
Proof.
  unfold descending. destruct (blob_intensity a) as [q| | |]; try done.
  simpl. apply negb_true_iff, Qltb_ge, Qle_refl.
Qed.

(** X3: suppress_close_blobs_by_intensity never removes a blob without a
    reason: every input blob is either returned, or lies in the
    cylinder of a returned blob that is at least as bright. *)
Theorem proximity_dropped_has_brighter_neighbour (srt : ArgSort)
    (blobs : list blob) (radius_xy z_window : Q) (b : blob) :
  b ∈ blobs ->
  b ∈ suppress_close_blobs_by_intensity blobs radius_xy z_window \/
  exists a,
    a ∈ suppress_close_blobs_by_intensity blobs radius_xy z_window /\
    in_cylinder radius_xy z_window a b = true /\ descending a b.
Proof.
  intros Hb. unfold suppress_close_blobs_by_intensity.
  destruct (length blobs =? 0)%nat; [by left|].
  set (bs := sort_by_intensity blobs).
  set (K := proximity_outer radius_xy z_window bs (seq 0 (length bs))
              (replicate (length bs) true)).
  assert (Hbs : b ∈ bs).
  { unfold bs. by rewrite (sort_by_intensity_perm blobs). }
  apply list_elem_of_lookup in Hbs as [j Hj].
  pose proof (lookup_lt_Some _ _ _ Hj) as Hlt.
  assert (Hinit : replicate (length bs) true !! j = Some true)
    by (by apply lookup_replicate_2).
  destruct (K !! j) as [[]|] eqn:HK.
  - left. by eapply boolean_index_elem.
  - right.
    destruct (proximity_outer_cleared radius_xy z_window bs 0 (length bs)
                _ j Hinit HK) as (i & a & b' & _ & Hij & Ha & Hb' & Hi & Hn).
    assert (b' = b) by congruence. subst b'.
    exists a. split; [by eapply boolean_index_elem|]. split; [done|].
    eapply (StronglySorted_lookup descending bs i j); eauto.
    apply sort_by_intensity_descending.
  - apply lookup_ge_None in HK. unfold K in HK.
    rewrite proximity_outer_length, length_replicate in HK. lia.
Qed.

Lemma proximity_dropped_has_brighter_neighbour_witness :
  far_a ∈ [far_a; far_b; far_c] /\
  (far_a ∈ @suppress_close_blobs_by_intensity stable_sort
             [far_a; far_b; far_c] 10 2 \/
   exists a,
     a ∈ @suppress_close_blobs_by_intensity stable_sort
           [far_a; far_b; far_c] 10 2 /\
     in_cylinder 10 2 a far_a = true /\ descending a far_a).
Proof.
  assert (Hin : far_a ∈ [far_a; far_b; far_c]) by apply list_elem_of_here.
  split; [exact Hin|].
  exact (proximity_dropped_has_brighter_neighbour stable_sort
           [far_a; far_b; far_c] 10 2 far_a Hin).
Defined.

(** X4: suppress_close_blobs_by_intensity always returns the head of the
    priority order: on a non-empty input the first record of the output
    is a blob at least as bright as every input blob (NaN counted
    lowest). *)
Theorem proximity_keeps_brightest (srt : ArgSort) (blobs : list blob)
    (radius_xy z_window : Q) :
  blobs <> [] ->
  exists a rest,
    suppress_close_blobs_by_intensity blobs radius_xy z_window = a :: rest /\
    a ∈ blobs /\ Forall (descending a) blobs.
Proof.
  intros Hne. unfold suppress_close_blobs_by_intensity.
  destruct (length blobs =? 0)%nat eqn:E.
  { apply Nat.eqb_eq, nil_length_inv in E. done. }
  pose proof (sort_by_intensity_perm blobs) as Hp.
  pose proof (sort_by_intensity_descending blobs) as Hd.
  destruct (sort_by_intensity blobs) as [|a tl] eqn:Hs.
  { symmetry in Hp. by apply Permutation_nil_r in Hp. }
  set (K := proximity_outer radius_xy z_window (a :: tl)
              (seq 0 (length (a :: tl))) (replicate (length (a :: tl)) true)).
  assert (H0 : K !! 0%nat = Some true).
  { unfold K. by rewrite proximity_outer_low by lia. }
  destruct K as [|k K']; [done|]. injection H0 as ->.
  exists a, (boolean_index tl K'). split; [reflexivity|]. split.
  - rewrite <- Hp. apply list_elem_of_here.
  - rewrite <- Hp. inversion Hd; subst. constructor; [|done].
    apply descending_refl.
Qed.

Lemma proximity_keeps_brightest_witness :
  [far_a; far_b; far_c] <> [] /\
  exists a rest,
    @suppress_close_blobs_by_intensity stable_sort [far_a; far_b; far_c] 10 2
    = a :: rest /\
    a ∈ [far_a; far_b; far_c] /\ Forall (descending a) [far_a; far_b; far_c].
Proof.
  assert (Hne : [far_a; far_b; far_c] <> []) by discriminate.
  split; [exact Hne|].
  exact (proximity_keeps_brightest stable_sort [far_a; far_b; far_c] 10 2 Hne).
Defined.

Lemma StronglySorted_total {A} (R : A -> A -> Prop) (l : list A) :
  (forall a b, R a b) -> StronglySorted R l.
Proof.
  intros HR. induction l as [|a l IH]; constructor; [done|].
  apply Forall_forall. auto.
Qed.

(** X5: With a negative z_window no pair of blobs is ever within the Z
    window, so suppress_close_blobs_by_intensity removes nothing and
    only sorts its input. *)
Theorem proximity_negative_window_keeps_all (srt : ArgSort)
    (blobs : list blob) (radius_xy z_window : Q) :
  (z_window < 0)%Q ->
  suppress_close_blobs_by_intensity blobs radius_xy z_window
  = sort_by_intensity blobs.
Proof.
  intros Hneg. apply suppress_close_far_input.
  apply StronglySorted_total. intros a b. unfold in_cylinder.
  apply andb_false_iff. left. apply not_true_iff_false.
  rewrite Qle_bool_iff. intros Hle.
  pose proof (Qabs_nonneg (blob_z b - blob_z a)) as Habs.
  apply (Qlt_irrefl 0). eapply Qle_lt_trans; [|exact Hneg].
  by eapply Qle_trans.
Qed.

Lemma proximity_negative_window_keeps_all_witness :
  (-1 < 0)%Q /\
  @suppress_close_blobs_by_intensity stable_sort [far_a; far_b; far_c] 10 (-1)
  = @sort_by_intensity stable_sort [far_a; far_b; far_c].
Proof.
  assert (Hneg : (-1 < 0)%Q) by reflexivity.
  split; [exact Hneg|].
  exact (proximity_negative_window_keeps_all stable_sort
           [far_a; far_b; far_c] 10 (-1) Hneg).
Defined.

(** ** BridgeSuppressor: blobs that cannot be removed *)

Lemma dip_ratio_nan_l (min_val : Q) (v : f64) : dip_ratio min_val NaN v = NaN.
Proof. reflexivity. Qed.

Lemma dip_ratio_nan_r (min_val : Q) (v : f64) : dip_ratio min_val v NaN = NaN.
Proof. unfold dip_ratio, avg_peak. by destruct v. Qed.

Section BridgeKeeps.
Variable line_nd : point -> point -> list point.
Variable image : Volume.
Variables radius_xy z_window dip_threshold : Q.
Variable bs : list blob.

Local Abbreviation inner :=
  (bridge_inner line_nd image radius_xy z_window dip_threshold bs).
Local Abbreviation step :=
  (bridge_step line_nd image radius_xy z_window dip_threshold bs).
Local Abbreviation outer :=
  (bridge_outer line_nd image radius_xy z_window dip_threshold bs).

Lemma bridge_inner_protected (t i : nat) (blob1 : blob) (js : list nat)
    (keep k : list bool) :
  bridge_protected dip_threshold bs t -> bs !! i = Some blob1 ->
  (forall j, j ∈ js -> (i < j)%nat) ->
  inner i blob1 js keep = Ok k -> k !! t = keep !! t.
Proof.
  intros Hprot Hi. revert keep.
  induction js as [|j js IH]; intros keep Hjs; cbn [bridge_inner].
  { by intros [= ->]. }
  assert (Hjs' : forall j', j' ∈ js -> (i < j')%nat).
  { intros j' Hj'. apply Hjs. by apply list_elem_of_further. }
  assert (Hij : (i < j)%nat) by (apply Hjs; apply list_elem_of_here).
  destruct (keep !! j) as [[]|] eqn:Hk; try (by apply IH).
  destruct (bs !! j) as [blob2|] eqn:Hb2; try (by apply IH).
  destruct (Qltb z_window _); [by apply IH|].
  destruct (Qltb (radius_xy ^ 2) _); [by apply IH|].
  destruct (bridge_min line_nd image blob1 blob2) as [min_val|e]; [|done].
  destruct (fgt (dip_ratio _ _ _) _) eqn:Hdip; [|by apply IH].
  destruct (fgt (blob_intensity blob1) (blob_intensity blob2)) eqn:Hgt.
  - intros Hres. rewrite (IH _ Hjs' Hres).
    destruct (decide (j = t)) as [->|Hne].
    + destruct (Hprot i blob2 blob1 min_val Hb2 Hi) as [Hlow _].
      specialize (Hlow Hij Hdip). congruence.
    + by rewrite list_lookup_insert_ne.
  - intros [= <-].
    destruct (decide (i = t)) as [->|Hne].
    + destruct (Hprot j blob1 blob2 min_val Hi Hb2) as [_ Hhigh].
      specialize (Hhigh Hij Hdip). congruence.
    + by rewrite list_lookup_insert_ne.
Qed.

Lemma bridge_outer_protected (t : nat) (idx : list nat)
    (keep k : list bool) :
  bridge_protected dip_threshold bs t ->
  outer idx keep = Ok k -> k !! t = keep !! t.
Proof.
  intros Hprot. revert keep.
  induction idx as [|i idx IH]; intros keep; simpl.
  { by intros [= ->]. }
  destruct (step keep i) as [keep'|e] eqn:Hs; [|done].
  intros Hres. rewrite (IH _ Hres).
  unfold bridge_step in Hs.
  destruct (keep !! i) as [[]|]; try (by injection Hs as ->).
  destruct (bs !! i) as [blob1|] eqn:Hb1; try (by injection Hs as ->).
  eapply bridge_inner_protected; try eassumption.
  intros j Hj%elem_of_seq. lia.
Qed.
End BridgeKeeps.

(** a protected position of the priority order is in the output *)
Lemma bridge_protected_survives `{ArgSort}
    (line_nd : point -> point -> list point) (blobs : list blob)
    (image : Volume) (radius_xy z_window dip_threshold : Q)
    (out : list blob) (t : nat) (b : blob) :
  sort_by_intensity blobs !! t = Some b ->
  bridge_protected dip_threshold (sort_by_intensity blobs) t ->
  suppress_blobs_by_bridge_intensity line_nd blobs image radius_xy z_window
    dip_threshold = Ok out ->
  b ∈ out.
Proof.
  intros Ht Hprot. unfold suppress_blobs_by_bridge_intensity.
  destruct (length blobs =? 0)%nat eqn:E.
  { apply Nat.eqb_eq, nil_length_inv in E. subst.
    pose proof (sort_by_intensity_perm []) as Hp.
    apply Permutation_nil_r in Hp. rewrite Hp in Ht. done. }
  destruct (bridge_outer _ _ _ _ _ _ _ _) as [k|e] eqn:Hk; [|done].
  intros [= <-]. eapply boolean_index_elem; [exact Ht|].
  rewrite (bridge_outer_protected _ _ _ _ _ _ t _ _ _ Hprot Hk).
  apply lookup_replicate_2. by eapply lookup_lt_Some.
Qed.

(** X6: Whenever suppress_blobs_by_bridge_intensity returns, every input
    blob whose intensity is NaN is in the output: a NaN intensity makes
    dip_ratio NaN, and no comparison with NaN holds. *)
Theorem bridge_keeps_nan_intensity (srt : ArgSort)
    (line_nd : point -> point -> list point) (blobs : list blob)
    (image : Volume) (radius_xy z_window dip_threshold : Q)
    (out : list blob) (b : blob) :
  suppress_blobs_by_bridge_intensity line_nd blobs image radius_xy z_window
    dip_threshold = Ok out ->
  b ∈ blobs -> blob_intensity b = NaN -> b ∈ out.
Proof.
  intros Hout Hb Hnan.
  rewrite <- (sort_by_intensity_perm blobs) in Hb.
  apply list_elem_of_lookup in Hb as [t Ht].
  eapply bridge_protected_survives; [exact Ht| |exact Hout].
  intros u bt bu min_val Hbt Hbu.
  assert (bt = b) by congruence. subst bt. rewrite Hnan.
  split; intros _ Hdip.
  - by rewrite dip_ratio_nan_r in Hdip.
  - by rewrite dip_ratio_nan_l in Hdip.
Qed.

Lemma bridge_keeps_nan_intensity_witness :
  @suppress_blobs_by_bridge_intensity stable_sort line_nd_skimage
    [peak_a; unmeasured_peak] bridge_image 30 4 (1 # 2)
  = Ok [peak_a; unmeasured_peak] /\
  unmeasured_peak ∈ [peak_a; unmeasured_peak].
Proof.
  assert (Hout : @suppress_blobs_by_bridge_intensity stable_sort
                   line_nd_skimage [peak_a; unmeasured_peak] bridge_image
                   30 4 (1 # 2) = Ok [peak_a; unmeasured_peak])
    by reflexivity.
  split; [exact Hout|].
  apply (bridge_keeps_nan_intensity stable_sort line_nd_skimage
           [peak_a; unmeasured_peak] bridge_image 30 4 (1 # 2) _
           unmeasured_peak Hout).
  - apply list_elem_of_further, list_elem_of_here.
  - reflexivity.
Defined.

(** X7: Whenever suppress_blobs_by_bridge_intensity returns, a blob that is
    strictly brighter than every other input blob is in the output. *)
Theorem bridge_keeps_unique_brightest (srt : ArgSort)
    (line_nd : point -> point -> list point) (blobs rest : list blob)
    (image : Volume) (radius_xy z_window dip_threshold : Q)
    (out : list blob) (a : blob) :
  blobs ≡ₚ a :: rest ->
  Forall (fun b => fgt (blob_intensity a) (blob_intensity b) = true) rest ->
  suppress_blobs_by_bridge_intensity line_nd blobs image radius_xy z_window
    dip_threshold = Ok out ->
  a ∈ out.
Proof.
  intros Hp Hall Hout.
  pose proof (sort_by_intensity_perm blobs) as Hsp.
  pose proof (sort_by_intensity_descending blobs) as Hd.
  destruct (sort_by_intensity blobs) as [|h tl] eqn:Hs.
  { rewrite Hp in Hsp. symmetry in Hsp. by apply Permutation_nil_r in Hsp. }
  rewrite Hp in Hsp.
  assert (Hweak : forall b, b ∈ rest -> ~ descending b a).
  { intros b Hb. rewrite Forall_forall in Hall. specialize (Hall b Hb).
    unfold descending, fgt in *.
    destruct (blob_intensity a), (blob_intensity b); simpl in *;
      try congruence. by rewrite Hall. }
  assert (Hh : h = a).
  { assert (Hha : h ∈ a :: rest) by (rewrite <- Hsp; apply list_elem_of_here).
    apply elem_of_cons in Hha as [?|Hhr]; [done|].
    assert (Hah : a ∈ h :: tl) by (rewrite Hsp; apply list_elem_of_here).
    apply elem_of_cons in Hah as [?|Hat]; [done|].
    inversion Hd as [|? ? _ Hfa]; subst. rewrite Forall_forall in Hfa.
    exfalso. apply (Hweak h Hhr). by apply Hfa. }
  subst h. apply Permutation_cons_inv in Hsp.
  eapply (bridge_protected_survives line_nd blobs image radius_xy z_window
            dip_threshold out 0 a); [by rewrite Hs| |exact Hout].
  rewrite Hs. intros u bt bu min_val Hbt Hbu. injection Hbt as <-.
  split; [lia|]. intros Hu _.
  destruct u as [|u]; [lia|]. simpl in Hbu.
  rewrite Forall_forall in Hall. apply Hall. rewrite <- Hsp.
  by eapply list_elem_of_lookup_2.
Qed.

Lemma bridge_keeps_unique_brightest_witness :
  [peak_b; peak_a] ≡ₚ peak_a :: [peak_b] /\
  Forall (fun b => fgt (blob_intensity peak_a) (blob_intensity b) = true)
         [peak_b] /\
  peak_a ∈ [peak_a].
Proof.
  assert (Hp : [peak_b; peak_a] ≡ₚ peak_a :: [peak_b])
    by apply Permutation_swap.
  assert (Hall : Forall (fun b => fgt (blob_intensity peak_a)
                                      (blob_intensity b) = true) [peak_b]).
  { by repeat constructor. }
  assert (Hout : @suppress_blobs_by_bridge_intensity stable_sort
                   line_nd_skimage [peak_b; peak_a] bridge_image 30 4 (1 # 2)
                 = Ok [peak_a]) by reflexivity.
  refine (conj Hp (conj Hall _)).
  exact (bridge_keeps_unique_brightest stable_sort line_nd_skimage
           [peak_b; peak_a] [peak_b] bridge_image 30 4 (1 # 2) [peak_a]
           peak_a Hp Hall Hout).
Defined.

(** ** BridgeSuppressor: two blobs on one voxel *)

(** X9: When the two blobs of a list truncate to the same voxel and pass
    both gates, the rasterised line between them has no point (as for
    line_nd, which leaves the end point out), np.min is called on an
    empty array and suppress_blobs_by_bridge_intensity raises
    ValueError. *)
Theorem bridge_same_voxel_raises (srt : ArgSort)
    (line_nd : point -> point -> list point) (image : Volume)
    (blobs : list blob) (a b : blob) (radius_xy z_window dip_threshold : Q) :
  (forall p, line_nd p p = []) ->
  blobs ≡ₚ [a; b] ->
  blob_voxel_int a = blob_voxel_int b ->
  (Qabs (blob_z b - blob_z a) <= z_window)%Q ->
  ((blob_y b - blob_y a) ^ 2 + (blob_x b - blob_x a) ^ 2
   <= radius_xy ^ 2)%Q ->
  suppress_blobs_by_bridge_intensity line_nd blobs image radius_xy z_window
    dip_threshold = Raise ValueError.
Proof.
  intros Hline Hp Hv Hz Hxy.
  assert (Hlen : (length blobs =? 0)%nat = false).
  { apply Nat.eqb_neq. by rewrite (Permutation_length Hp). }
  assert (Hz' : (Qabs (blob_z a - blob_z b) <= z_window)%Q).
  { by rewrite Qabs_Qminus. }
  assert (Hxy' : ((blob_y a - blob_y b) ^ 2 + (blob_x a - blob_x b) ^ 2
                  <= radius_xy ^ 2)%Q).
  { eapply Qle_trans; [|exact Hxy]. apply Qle_lteq. right. simpl. ring. }
  apply Qltb_ge in Hz, Hz', Hxy, Hxy'.
  assert (Hs : [a; b] ≡ₚ sort_by_intensity blobs).
  { by rewrite sort_by_intensity_perm. }
  unfold suppress_blobs_by_bridge_intensity. rewrite Hlen.
  apply Permutation_length_2_inv in Hs as [E|E]; rewrite E;
    cbn [length replicate seq Nat.sub bridge_outer];
    unfold bridge_step; cbn [bridge_inner length seq Nat.sub];
    simpl lookup; cbv iota.
  - rewrite Hz, Hxy. unfold bridge_min. by rewrite Hv, Hline.
  - rewrite Hz', Hxy'. unfold bridge_min. by rewrite Hv, Hline.
Qed.

Lemma bridge_same_voxel_raises_witness :
  (forall p, line_nd_skimage p p = []) /\
  @suppress_blobs_by_bridge_intensity stable_sort line_nd_skimage
    [peak_a; peak_a_shifted] bridge_image 20 4 (1 # 2) = Raise ValueError.
Proof.
  assert (Hline : forall p, line_nd_skimage p p = []).
  { intros [[z y] x]. unfold line_nd_skimage.
    rewrite !Z.sub_diag. reflexivity. }
  split; [exact Hline|].
  apply (bridge_same_voxel_raises stable_sort line_nd_skimage bridge_image
           [peak_a; peak_a_shifted] peak_a peak_a_shifted 20 4 (1 # 2) Hline).
  - reflexivity.
  - reflexivity.
  - apply Qle_bool_iff. reflexivity.
  - apply Qle_bool_iff. reflexivity.
Defined.

(** ** LocalContrastFilter after detect_blob_intensities *)

Lemma blob_voxel_hstack_row (c : candidate) (v : f64) :
  blob_voxel (hstack_row c v) = cand_voxel c.
Proof. reflexivity. Qed.

Lemma fgt_nan_l (v : f64) : fgt NaN v = false.
Proof. by destruct v. Qed.

(** X10: Blobs measured by detect_blob_intensities and then passed through
    filter_blobs_by_local_intensity: every survivor is an input row
    whose 3x3 window lies inside the slice, with the mean of that
    window as intensity.  The rows that were given NaN never pass. *)
Theorem local_filter_after_measurement (image : Volume)
    (blobs : list candidate) (region_size : Z) (ratio_threshold : Q)
    (b : blob) :
  b ∈ filter_blobs_by_local_intensity image
        (detect_blob_intensities image blobs) region_size ratio_threshold ->
  exists c, c ∈ blobs /\
    let '(z, y, x) := cand_voxel c in
    1 <= y < shape1 image - 1 /\ 1 <= x < shape2 image - 1 /\
    0 <= z < shape0 image /\
    b = hstack_row c (Fin (Qsum (window3 image z y x) / 9)).
Proof.
  intros Hb. apply elem_of_list_filter in Hb as [Hin Hk].
  unfold detect_blob_intensities in Hin.
  apply list_elem_of_lookup in Hin as [k Hk'].
  rewrite lookup_zip_with in Hk'.
  destruct (blobs !! k) as [c|] eqn:Hc; [|done]. simpl in Hk'.
  rewrite list_lookup_fmap, Hc in Hk'. simpl in Hk'. injection Hk' as <-.
  exists c. split; [by eapply list_elem_of_lookup_2|].
  unfold local_intensity_keeps in Hk.
  destruct (region_in_bounds _ _ _); [|done].
  change (blob_intensity (hstack_row c (patch_intensity image c)))
    with (patch_intensity image c) in Hk.
  unfold patch_intensity in *.
  destruct (cand_voxel c) as [[z y] x].
  destruct (patch_in_bounds image (z, y, x)) eqn:Hb.
  - unfold patch_in_bounds in Hb.
    rewrite !andb_true_iff, !Z.leb_le, !Z.ltb_lt in Hb.
    repeat split; try lia. by rewrite patch2d_window3 by lia.
  - by rewrite fgt_nan_l in Hk.
Qed.

Lemma local_filter_after_measurement_witness :
  hstack_row centre_row (Fin (9 / 9))
  ∈ filter_blobs_by_local_intensity flat_image
      (detect_blob_intensities flat_image [edge_row; centre_row])
      10 (1 # 2) /\
  exists c, c ∈ [edge_row; centre_row] /\
    let '(z, y, x) := cand_voxel c in
    1 <= y < shape1 flat_image - 1 /\ 1 <= x < shape2 flat_image - 1 /\
    0 <= z < shape0 flat_image /\
    hstack_row centre_row (Fin (9 / 9))
    = hstack_row c (Fin (Qsum (window3 flat_image z y x) / 9)).
Proof.
  assert (Hin : hstack_row centre_row (Fin (9 / 9))
                ∈ filter_blobs_by_local_intensity flat_image
                    (detect_blob_intensities flat_image
                       [edge_row; centre_row]) 10 (1 # 2)).
  { vm_compute. apply list_elem_of_here. }
  split; [exact Hin|].
  exact (local_filter_after_measurement flat_image [edge_row; centre_row]
           10 (1 # 2) _ Hin).
Defined.

(** ** LocalContrastFilter: raising the threshold *)

Lemma list_filter_sublist_impl {A} (f g : A -> bool) (l : list A) :
  (forall a, f a = true -> g a = true) ->
  List.filter f l `sublist_of` List.filter g l.
Proof.
  intros Hfg. induction l as [|a l IH]; simpl; [constructor|].
  destruct (f a) eqn:Hf.
  - rewrite (Hfg a Hf). by apply sublist_skip.
  - destruct (g a); [by apply sublist_cons|done].
Qed.

Lemma Qsum_nonneg (l : list Q) :
  Forall (fun v => 0 <= v)%Q l -> (0 <= Qsum l)%Q.
Proof.
  induction 1 as [|v l Hv Hl IH]; simpl; [apply Qle_refl|].
  replace 0%Q with (0 + 0)%Q by reflexivity. by apply Qplus_le_compat.
Qed.

Lemma np_mean_nonneg (l : list Q) :
  Forall (fun v => 0 <= v)%Q l ->
  np_mean l = NaN \/ exists m, np_mean l = Fin m /\ (0 <= m)%Q.
Proof.
  intros Hl. destruct l as [|v l]; [by left|]. right.
  eexists. split; [reflexivity|].
  apply Qle_shift_div_l; [reflexivity|].
  rewrite Qmult_0_l. by apply Qsum_nonneg.
Qed.

Lemma patch2d_Forall (P : Q -> Prop) (image : Volume) (z ys ye xs xe : Z) :
  (forall z y x, P (voxel image z y x)) ->
  Forall P (patch2d image z ys ye xs xe).
Proof.
  intros HP. unfold patch2d. apply Forall_forall. intros v Hv.
  apply list_elem_of_In, in_flat_map in Hv as (y & _ & Hv).
  apply in_map_iff in Hv as (x & <- & _). apply HP.
Qed.

(** X11: On a volume without negative voxels, a larger ratio_threshold never
    lets more through: what filter_blobs_by_local_intensity returns for
    the larger threshold is a sublist of what it returns for the
    smaller one. *)
Theorem local_filter_antitone (image : Volume) (blobs : list blob)
    (region_size : Z) (ratio1 ratio2 : Q) :
  (forall z y x, 0 <= voxel image z y x)%Q ->
  (ratio1 <= ratio2)%Q ->
  filter_blobs_by_local_intensity image blobs region_size ratio2
    `sublist_of`
  filter_blobs_by_local_intensity image blobs region_size ratio1.
Proof.
  intros Hpos Hle. apply list_filter_sublist_impl. intros b.
  unfold local_intensity_keeps.
  destruct (region_in_bounds _ _ _); [|done].
  unfold local_mean. destruct (blob_voxel b) as [[z y] x].
  destruct (np_mean_nonneg
              (patch2d image z (y - region_size) (y + region_size + 1)
                 (x - region_size) (x + region_size + 1)))
    as [->|(m & -> & Hm)].
  { by apply patch2d_Forall. }
  - done.
  - unfold fgt. simpl fmul.
    assert (Hmul : (ratio1 * m <= ratio2 * m)%Q).
    { by apply Qmult_le_compat_r. }
    destruct (blob_intensity b) as [p| | |]; simpl; try done.
    rewrite !Qltb_lt. intros Hlt. by eapply Qle_lt_trans.
Qed.

Lemma local_filter_antitone_witness :
  filter_blobs_by_local_intensity flat_image [centre_blob] 10 6
    `sublist_of`
  filter_blobs_by_local_intensity flat_image [centre_blob] 10 2.
Proof.
  apply local_filter_antitone.
  - intros z y x. apply Qle_bool_iff. reflexivity.
  - apply Qle_bool_iff. reflexivity.
Defined.

(** ** Detector: what detect_blobs returns and when it raises *)

Lemma elem_of_zrange (a b v : Z) : v ∈ zrange a b <-> a <= v < b.
Proof.
  unfold zrange. rewrite list_elem_of_fmap. split.
  - intros (k & -> & Hk%elem_of_seq). lia.
  - intros Hv. exists (Z.to_nat (v - a)). split; [lia|].
    apply elem_of_seq. lia.
Qed.

Lemma zrange_sorted (a b : Z) : StronglySorted Z.le (zrange a b).
Proof.
  unfold zrange.
  apply (StronglySorted_fmap _ le); [intros; lia|apply StronglySorted_seq].
Qed.

Lemma flat_map_sorted_by_key {A} (f : Z -> list A) (key : A -> Z)
    (zs : list Z) :
  StronglySorted Z.le zs ->
  (forall z a, a ∈ f z -> key a = z) ->
  StronglySorted (fun a b => key a <= key b) (flat_map f zs).
Proof.
  intros Hs Hkey. induction Hs as [|z zs Hs IH Hall]; simpl; [constructor|].
  apply StronglySorted_app_2; [| |exact IH].
  - intros a b Ha Hb.
    apply list_elem_of_In, in_flat_map in Hb as (z' & Hz' & Hb).
    rewrite Forall_forall in Hall.
    rewrite (Hkey z a Ha), (Hkey z' b); [|by apply list_elem_of_In].
    apply Hall. by apply list_elem_of_In.
  - apply (StronglySorted_impl_elem (fun _ _ => True)).
    + intros a b Ha Hb _. rewrite (Hkey z a Ha), (Hkey z b Hb). lia.
    + by apply StronglySorted_total.
Qed.

Section DetectorFacts.
Variable blob_log : Image2D -> Q -> Q -> Z -> f64 -> list (Q * Q * Q).
Variable image : Volume.
Variables min_sigma max_sigma : Q.
Variable num_sigma : Z.

(** the candidates of all slices, tagged with their slice, as the first
    loop of detect_blobs collects them *)
Local Abbreviation blobs_all t :=
  (flat_map (fun z =>
     map (fun b : Q * Q * Q => let '(y, x, sigma) := b in (z, y, x, sigma))
         (blob_log (slice_at image z) min_sigma max_sigma num_sigma t))
     (zrange 0 (shape0 image))).

Lemma blobs_all_elem (t : f64) (z : Z) (y x sigma : Q) :
  (z, y, x, sigma) ∈ blobs_all t <->
  0 <= z < shape0 image /\
  (y, x, sigma) ∈ blob_log (slice_at image z) min_sigma max_sigma
                    num_sigma t.
Proof.
  rewrite list_elem_of_In, in_flat_map. split.
  - intros (z' & Hz' & Hin).
    apply in_map_iff in Hin as ([[y' x'] s'] & E & Hin).
    injection E as -> -> -> ->.
    split; [by apply elem_of_zrange, list_elem_of_In|by apply list_elem_of_In].
  - intros [Hz Hin]. exists z. split.
    + by apply list_elem_of_In, elem_of_zrange.
    + apply in_map_iff. exists (y, x, sigma). split; [done|].
      by apply list_elem_of_In.
Qed.

(** X13: detect_blobs returns only for one of the two threshold modes, and
    never an empty list.  Every returned blob comes from the candidates
    [blob_log] gave for one slice, called with the resolved threshold:
    its z is that slice index (so 0 <= z < depth), its intensity the
    mean of the clamped 3x3 window around the truncated (y, x) in that
    slice; the blobs come in slice order. *)
Theorem detect_blobs_returns (threshold_mode : string) (threshold_value : Q)
    (blobs : list blob) :
  detect_blobs blob_log image min_sigma max_sigma num_sigma threshold_mode
    threshold_value = Ok blobs ->
  (threshold_mode = "percentile" \/ threshold_mode = "absolute")%string /\
  blobs <> [] /\
  (exists t,
     detect_blobs_threshold image threshold_mode threshold_value = Ok t /\
     Forall (fun b => exists z,
               blob_z b = inject_Z z /\ 0 <= z < shape0 image /\
               (blob_y b, blob_x b, blob_sigma b)
               ∈ blob_log (slice_at image z) min_sigma max_sigma
                   num_sigma t /\
               blob_intensity b
               = clamped_patch_mean image z (blob_y b) (blob_x b)) blobs) /\
  StronglySorted (fun a b => blob_z a <= blob_z b)%Q blobs.
Proof.
  unfold detect_blobs.
  destruct (detect_blobs_threshold image threshold_mode threshold_value)
    as [t|e] eqn:Ht; [|done].
  intros Hres. split.
  { unfold detect_blobs_threshold in Ht.
    destruct (String.eqb threshold_mode "percentile") eqn:E1.
    - left. by apply String.eqb_eq.
    - destruct (String.eqb threshold_mode "absolute") eqn:E2; [|done].
      right. by apply String.eqb_eq. }
  pose (row := fun b : Z * Q * Q * Q =>
                 let '(z, y, x, sigma) := b in
                 mkBlob (inject_Z z) y x sigma
                        (clamped_patch_mean image z y x)).
  assert (Hb : blobs_all t <> [] /\ blobs = map row (blobs_all t)).
  { unfold detect_blobs_with in Hres.
    destruct (blobs_all t) as [|r rs]; [done|].
    injection Hres as <-. done. }
  destruct Hb as [Hne ->]. split.
  { intros E. by apply map_eq_nil in E. }
  split.
  - exists t. split; [done|]. apply Forall_forall. intros b Hb.
    apply list_elem_of_fmap in Hb as ([[[z y] x] s] & -> & Hin).
    apply blobs_all_elem in Hin as [Hz Hin]. by exists z.
  - apply (StronglySorted_fmap _
             (fun a b : Z * Q * Q * Q => a.1.1.1 <= b.1.1.1)).
    + intros [[[z1 y1] x1] s1] [[[z2 y2] x2] s2]. simpl.
      by rewrite <- Zle_Qle.
    + apply (flat_map_sorted_by_key _ (fun a : Z * Q * Q * Q => a.1.1.1));
        [apply zrange_sorted|].
      intros z a Ha. apply list_elem_of_fmap in Ha as ([[y x] s] & -> & _).
      reflexivity.
Qed.

(** X14: detect_blobs raises ValueError for a threshold_mode other than
    'percentile' and 'absolute', whatever the volume; and, once the
    threshold is resolved, when [blob_log] finds no candidate in any
    slice (the final np.hstack cannot join an empty row list with the
    intensity column). *)
Theorem detect_blobs_raises (threshold_mode : string) (threshold_value : Q) :
  (threshold_mode <> "percentile"%string ->
   threshold_mode <> "absolute"%string ->
   detect_blobs blob_log image min_sigma max_sigma num_sigma threshold_mode
     threshold_value = Raise ValueError) /\
  (forall t,
     detect_blobs_threshold image threshold_mode threshold_value = Ok t ->
     (forall z, 0 <= z < shape0 image ->
        blob_log (slice_at image z) min_sigma max_sigma num_sigma t = []) ->
     detect_blobs blob_log image min_sigma max_sigma num_sigma threshold_mode
       threshold_value = Raise ValueError).
Proof.
  split.
  - intros H1 H2. unfold detect_blobs, detect_blobs_threshold.
    apply String.eqb_neq in H1, H2. by rewrite H1, H2.
  - intros t Ht Hnone. unfold detect_blobs. rewrite Ht.
    unfold detect_blobs_with.
    destruct (blobs_all t) as [|[[[z y] x] s] rs] eqn:Hall; [done|].
    assert (Hin : (z, y, x, s) ∈ blobs_all t).
    { rewrite Hall. apply list_elem_of_here. }
    apply blobs_all_elem in Hin as [Hz Hin].
    rewrite (Hnone z Hz) in Hin. by apply elem_of_nil in Hin.
Qed.
End DetectorFacts.

(** every threshold gives one candidate at (1, 1) in each slice *)
Lemma detect_blobs_returns_witness :
  detect_blobs one_candidate flat_image 1 3 6 "absolute" 5
  = Ok [mkBlob 0 1 1 2 (Fin (9 / 9))] /\
  StronglySorted (fun a b => blob_z a <= blob_z b)%Q
    [mkBlob 0 1 1 2 (Fin (9 / 9))].
Proof.
  assert (Hres : detect_blobs one_candidate flat_image 1 3 6 "absolute" 5
                 = Ok [mkBlob 0 1 1 2 (Fin (9 / 9))]) by reflexivity.
  split; [exact Hres|].
  exact (proj2 (proj2 (proj2 (detect_blobs_returns one_candidate flat_image
                                1 3 6 "absolute" 5 _ Hres)))).
Defined.

Lemma detect_blobs_raises_witness :
  detect_blobs one_candidate flat_image 1 3 6 "relative" 5 = Raise ValueError.
Proof.
  apply (proj1 (detect_blobs_raises one_candidate flat_image 1 3 6
                  "relative" 5)); discriminate.
Defined.

(** ** Detector: the intensity column *)

Lemma np_round_inject_Z (v : Z) : np_round (inject_Z v) = v.
Proof.
  unfold np_round. rewrite Qfloor_Z.
  assert (H : Qltb (inject_Z v - inject_Z v) (1 # 2) = true).
  { unfold Qltb. simpl. apply Z.ltb_lt. lia. }
  by rewrite H.
Qed.

Lemma py_int_inject_Z (v : Z) : py_int (inject_Z v) = v.
Proof. unfold py_int. simpl. apply Z.quot_1_r. Qed.

Lemma rectangle_length (image : Volume) (z y0 y1 x0 x1 : Z) :
  length (rectangle image z y0 y1 x0 x1)
  = (Z.to_nat (y1 - y0) * Z.to_nat (x1 - x0))%nat.
Proof.
  unfold rectangle.
  rewrite (flat_map_const_length _ _ (Z.to_nat (x1 - x0))).
  - by rewrite zrange_length.
  - intros y'. by rewrite length_map, zrange_length.
Qed.

Lemma clamped_patch_mean_inside_fin (image : Volume) (z : Z) (y x : Q) :
  0 <= py_int y < shape1 image -> 0 <= py_int x < shape2 image ->
  exists m, clamped_patch_mean image z y x = Fin m.
Proof.
  intros Hy Hx. unfold clamped_patch_mean, patch2d.
  rewrite !slice_range_inside by lia.
  match goal with
  | |- context [np_mean ?pl] => destruct pl as [|v l] eqn:E
  end.
  - apply (f_equal length) in E.
    rewrite (flat_map_const_length _ _
               (Z.to_nat (Z.min (shape2 image) (py_int x + 2)
                          - Z.max 0 (py_int x - 1)))) in E.
    + rewrite zrange_length in E. simpl in E.
      apply Nat.eq_mul_0 in E. lia.
    + intros y'. by rewrite length_map, zrange_length.
  - by eexists.
Qed.

(** X15: The intensity detect_blobs gives a candidate whose truncated (y, x)
    lies inside the slice is a number, never NaN: the 3x3 window is cut
    at the slice's edges to between one and three rows and columns, all
    inside the slice and containing the centre, and the intensity is
    the mean over that rectangle. *)
Theorem clamped_patch_mean_inside (image : Volume) (z : Z) (y x : Q) :
  0 <= py_int y < shape1 image -> 0 <= py_int x < shape2 image ->
  let y0 := Z.max 0 (py_int y - 1) in
  let y1 := Z.min (shape1 image) (py_int y + 2) in
  let x0 := Z.max 0 (py_int x - 1) in
  let x1 := Z.min (shape2 image) (py_int x + 2) in
  y0 <= py_int y < y1 /\ 1 <= y1 - y0 <= 3 /\
  x0 <= py_int x < x1 /\ 1 <= x1 - x0 <= 3 /\
  clamped_patch_mean image z y x
  = Fin (Qsum (rectangle image z y0 y1 x0 x1)
         / inject_Z ((y1 - y0) * (x1 - x0))).
Proof.
  intros Hy Hx y0 y1 x0 x1.
  repeat (split; [lia|]).
  unfold clamped_patch_mean, patch2d.
  fold y0 y1 x0 x1. rewrite !slice_range_inside by lia.
  fold (rectangle image z y0 y1 x0 x1).
  pose proof (rectangle_length image z y0 y1 x0 x1) as Hlen.
  unfold np_mean.
  destruct (rectangle image z y0 y1 x0 x1) as [|v l] eqn:E.
  - simpl in Hlen. symmetry in Hlen. apply Nat.eq_mul_0 in Hlen. lia.
  - rewrite Hlen. do 3 f_equal. lia.
Qed.

Lemma clamped_patch_mean_inside_witness :
  clamped_patch_mean flat_image 0 0 (5 # 2)
  = Fin (Qsum (rectangle flat_image 0 0 2 1 4) / inject_Z (2 * 3)).
Proof.
  assert (Hy : 0 <= py_int 0 < shape1 flat_image) by (vm_compute; by split).
  assert (Hx : 0 <= py_int (5 # 2) < shape2 flat_image)
    by (vm_compute; by split).
  exact (proj2 (proj2 (proj2 (proj2
           (clamped_patch_mean_inside flat_image 0 0 (5 # 2) Hy Hx))))).
Defined.

(** X16: For a candidate with whole-number coordinates inside the volume,
    detect_blobs and detect_blob_intensities assign the same intensity
    (the mean of the full 3x3 window) when (y, x) is off the border of
    the slice; on the border rows and columns detect_blobs still
    assigns the mean of the clamped window while detect_blob_intensities
    assigns NaN. *)
Theorem intensity_of_whole_coordinates (image : Volume) (z y x : Z)
    (sigma : Q) :
  0 <= z < shape0 image -> 0 <= y < shape1 image -> 0 <= x < shape2 image ->
  let c := mkCandidate (inject_Z z) (inject_Z y) (inject_Z x) sigma in
  let direct := clamped_patch_mean image z (inject_Z y) (inject_Z x) in
  (1 <= y < shape1 image - 1 -> 1 <= x < shape2 image - 1 ->
   patch_intensity image c = direct /\
   direct = Fin (Qsum (window3 image z y x) / 9)) /\
  (y = 0 \/ y = shape1 image - 1 \/ x = 0 \/ x = shape2 image - 1 ->
   patch_intensity image c = NaN /\ is_finite direct = true).
Proof.
  intros Hz Hy Hx c direct.
  assert (Hvox : cand_voxel c = (z, y, x)).
  { unfold cand_voxel, c. simpl. by rewrite !np_round_inject_Z. }
  split.
  - intros Hy' Hx'.
    assert (Hd : direct = Fin (Qsum (window3 image z y x) / 9)).
    { unfold direct, clamped_patch_mean. rewrite !py_int_inject_Z.
      rewrite Z.max_r, Z.min_r, Z.max_r, Z.min_r by lia.
      by rewrite patch2d_window3 by lia. }
    split; [|exact Hd]. rewrite Hd.
    unfold patch_intensity. rewrite Hvox.
    assert (Hb : patch_in_bounds image (z, y, x) = true).
    { unfold patch_in_bounds.
      rewrite !andb_true_iff, !Z.leb_le, !Z.ltb_lt. lia. }
    rewrite Hb. by rewrite patch2d_window3 by lia.
  - intros Hedge. split.
    + unfold patch_intensity. rewrite Hvox.
      assert (Hb : patch_in_bounds image (z, y, x) = false).
      { unfold patch_in_bounds. apply not_true_iff_false.
        rewrite !andb_true_iff, !Z.leb_le, !Z.ltb_lt. lia. }
      by rewrite Hb.
    + assert (Hy' : 0 <= py_int (inject_Z y) < shape1 image)
        by (by rewrite py_int_inject_Z).
      assert (Hx' : 0 <= py_int (inject_Z x) < shape2 image)
        by (by rewrite py_int_inject_Z).
      destruct (clamped_patch_mean_inside_fin image z (inject_Z y)
                  (inject_Z x) Hy' Hx') as [m Hm].
      unfold direct. by rewrite Hm.
Qed.

Lemma intensity_of_whole_coordinates_witness :
  patch_intensity flat_image (mkCandidate (inject_Z 0) (inject_Z 0)
                                (inject_Z 10) 2) = NaN /\
  is_finite (clamped_patch_mean flat_image 0 (inject_Z 0) (inject_Z 10))
  = true.
Proof.
  apply (intensity_of_whole_coordinates flat_image 0 0 10 2).
  - vm_compute. by split.
  - vm_compute. by split.
  - vm_compute. by split.
  - by left.
Defined.

(** ** The filters in sequence *)

Lemma list_filter_comm {A} (f g : A -> bool) (l : list A) :
  List.filter f (List.filter g l) = List.filter g (List.filter f l).
Proof.
  induction l as [|a l IH]; simpl; [done|].
  destruct (f a) eqn:Hf, (g a) eqn:Hg; simpl; rewrite ?Hf, ?Hg, ?IH; done.
Qed.

Lemma list_filter_idem {A} (f : A -> bool) (l : list A) :
  List.filter f (List.filter f l) = List.filter f l.
Proof.
  induction l as [|a l IH]; simpl; [done|].
  destruct (f a) eqn:Hf; simpl; rewrite ?Hf, ?IH; done.
Qed.

(** X12: The three filters decide on each blob by itself, so they can be
    applied in any order with the same result, and applying one of them
    a second time (same volume or mask, same parameters) changes
    nothing. *)
Theorem filters_commute_and_are_idempotent
    (binary_erosion : Mask -> Z -> Z -> Z -> Z -> bool)
    (image : Volume) (original_mask : Mask) (blobs : list blob)
    (ratio_threshold drop_factor : Q) (region_size erosion_iterations : Z) :
  let local l :=
    filter_blobs_by_local_intensity image l region_size ratio_threshold in
  let sharp l := filter_blobs_by_sharpness l image drop_factor in
  let masked l :=
    fst (filter_blobs_outside_eroded_mask binary_erosion l original_mask
           erosion_iterations) in
  local (sharp blobs) = sharp (local blobs) /\
  masked (local blobs) = local (masked blobs) /\
  masked (sharp blobs) = sharp (masked blobs) /\
  local (local blobs) = local blobs /\
  sharp (sharp blobs) = sharp blobs /\
  masked (masked blobs) = masked blobs.
Proof.
  simpl. unfold filter_blobs_by_local_intensity, filter_blobs_by_sharpness.
  repeat split; auto using list_filter_comm, list_filter_idem.
Qed.

(** ** The pipeline of the annotation tool *)

Lemma in_cylinder_sym_far (radius_xy z_window : Q) (a b : blob) :
  in_cylinder radius_xy z_window a b = false ->
  in_cylinder radius_xy z_window b a = false.
Proof. by rewrite in_cylinder_sym. Qed.

Lemma suppress_bridge_sublist `{ArgSort}
    (line_nd : point -> point -> list point) (blobs : list blob)
    (image : Volume) (radius_xy z_window dip_threshold : Q)
    (out : list blob) :
  suppress_blobs_by_bridge_intensity line_nd blobs image radius_xy z_window
    dip_threshold = Ok out ->
  out `sublist_of` sort_by_intensity blobs.
Proof.
  unfold suppress_blobs_by_bridge_intensity.
  destruct (length blobs =? 0)%nat eqn:E.
  - apply Nat.eqb_eq, nil_length_inv in E. subst. intros [= <-].
    apply sublist_nil_l.
  - destruct (bridge_outer _ _ _ _ _ _ _ _) as [keep|e]; [|done].
    intros [= <-]. apply boolean_index_sublist.
Qed.

(** X17: What the annotation tool shows as 'Filtered Blobs' (detect_blobs,
    then suppress_close_blobs_by_intensity and
    suppress_blobs_by_bridge_intensity with their defaults): the blobs
    are detections, unchanged; they are in descending order of
    intensity; and no two of them lie within 2 slices and 10 px of each
    other. *)
Theorem detect_and_suppress_result (srt : ArgSort)
    (blob_log : Image2D -> Q -> Q -> Z -> f64 -> list (Q * Q * Q))
    (line_nd : point -> point -> list point)
    (image : Volume) (min_sigma max_sigma : Q) (num_sigma : Z)
    (threshold_mode : string) (threshold_value : Q) (out : list blob) :
  detect_and_suppress blob_log line_nd image min_sigma max_sigma num_sigma
    threshold_mode threshold_value = Ok out ->
  (exists all_detected_blobs,
     detect_blobs blob_log image min_sigma max_sigma num_sigma
       threshold_mode threshold_value = Ok all_detected_blobs /\
     out ⊆+ all_detected_blobs) /\
  StronglySorted descending out /\
  forall p q a b, p <> q -> out !! p = Some a -> out !! q = Some b ->
    ~ ((Qabs (blob_z a - blob_z b) <= 2)%Q /\
       ((blob_y a - blob_y b) ^ 2 + (blob_x a - blob_x b) ^ 2 <= 10 ^ 2)%Q).
Proof.
  unfold detect_and_suppress.
  destruct (detect_blobs _ _ _ _ _ _ _) as [all|e]; [|done].
  intros Hout.
  pose proof (suppress_bridge_sublist _ _ _ _ _ _ _ Hout) as Hsub.
  assert (Hfar : StronglySorted
                   (fun a b => in_cylinder 10 2 a b = false) out).
  { eapply StronglySorted_sublist; [exact Hsub|].
    eapply StronglySorted_symmetric_perm;
      [apply in_cylinder_sym_far| |apply (suppress_close_pairwise all 10 2)].
    symmetry. apply sort_by_intensity_perm. }
  split; [|split].
  - exists all. split; [done|].
    etransitivity; [by eapply suppress_bridge_submseteq|].
    apply suppress_close_submseteq.
  - eapply StronglySorted_sublist; [exact Hsub|].
    apply sort_by_intensity_descending.
  - intros p q a b Hpq Ha Hb Hnear. apply in_cylinder_true in Hnear.
    destruct (Nat.lt_total p q) as [Hlt|[?|Hlt]]; [|done|].
    + pose proof (StronglySorted_lookup _ _ p q a b Hfar Hlt Ha Hb) as Hf.
      simpl in Hf. congruence.
    + pose proof (StronglySorted_lookup _ _ q p b a Hfar Hlt Hb Ha) as Hf.
      simpl in Hf. rewrite in_cylinder_sym in Hf. congruence.
Qed.

Lemma detect_and_suppress_result_witness :
  @detect_and_suppress stable_sort one_candidate line_nd_skimage flat_image
    1 3 6 "absolute" 5 = Ok [mkBlob 0 1 1 2 (Fin (9 / 9))] /\
  StronglySorted descending [mkBlob 0 1 1 2 (Fin (9 / 9))].
Proof.
  assert (Hres : @detect_and_suppress stable_sort one_candidate
                   line_nd_skimage flat_image 1 3 6 "absolute" 5
                 = Ok [mkBlob 0 1 1 2 (Fin (9 / 9))]) by reflexivity.
  split; [exact Hres|].
  exact (proj1 (proj2 (detect_and_suppress_result stable_sort one_candidate
                         line_nd_skimage flat_image 1 3 6 "absolute" 5 _
                         Hres))).
Defined.

(** * image_utils.py *)

Lemma crop_row_stop_spec (n f : Z) :
  0 <= n -> 1 <= f -> Z.max 0 (crop_row_stop n (n / f)) = n / f.
Proof.
  intros Hn Hf. unfold crop_row_stop, slice_bound.
  assert (0 <= n / f) by (apply Z.div_pos; lia).
  assert (n / f <= n) by (apply Z.div_le_upper_bound; nia).
  destruct (n / f <? 0) eqn:E; [apply Z.ltb_lt in E; lia|]. lia.
Qed.

Lemma crop_col_start_spec (n f : Z) :
  0 <= n -> 1 <= f ->
  crop_col_start n (n / f) = (if n / f =? 0 then 0 else n - n / f).
Proof.
  intros Hn Hf. unfold crop_col_start, slice_bound.
  assert (0 <= n / f) by (apply Z.div_pos; lia).
  assert (n / f <= n) by (apply Z.div_le_upper_bound; nia).
  destruct (n / f =? 0) eqn:E0.
  - apply Z.eqb_eq in E0. rewrite E0. simpl. lia.
  - apply Z.eqb_neq in E0.
    destruct (- (n / f) <? 0) eqn:E; [|apply Z.ltb_ge in E; lia]. lia.
Qed.

(** X20: The crop of generate_small_version_of_image, for a 2D image of
    height h and width w and a shrinking factor f >= 1: the result has
    h // f rows, the top ones.  It has the last w // f columns, except
    when w // f is 0 (w < f): then the column slice [-0:] is the whole
    axis and all w columns are kept. *)
Theorem small_version_of_image_2d (i : Image2D) (shrinking_factor : Z)
    (three_dimensions : bool) :
  0 <= rows i -> 0 <= cols i -> 1 <= shrinking_factor ->
  exists small,
    generate_small_version_of_image (Image2 i) shrinking_factor
      three_dimensions = inr (Image2 small) /\
    rows small = rows i / shrinking_factor /\
    cols small = (if cols i / shrinking_factor =? 0 then cols i
                  else cols i / shrinking_factor) /\
    forall r c, pixel small r c = pixel i r (cols i - cols small + c).
Proof.
  intros Hr Hc Hf. unfold generate_small_version_of_image.
  destruct (shrinking_factor =? 0) eqn:E; [apply Z.eqb_eq in E; lia|].
  eexists. split; [reflexivity|]. unfold crop2d. simpl.
  rewrite crop_row_stop_spec, crop_col_start_spec by lia.
  assert (0 <= cols i / shrinking_factor) by (apply Z.div_pos; lia).
  assert (cols i / shrinking_factor <= cols i)
    by (apply Z.div_le_upper_bound; nia).
  destruct (cols i / shrinking_factor =? 0) eqn:E0.
  - repeat split; try lia. intros r c. f_equal. lia.
  - apply Z.eqb_neq in E0. repeat split; try lia. intros r c. f_equal. lia.
Qed.

Lemma small_version_of_image_2d_witness :
  exists small,
    generate_small_version_of_image (Image2 (slice_at flat_image 0)) 4 false
    = inr (Image2 small) /\
    rows small = 21 / 4 /\ cols small = 21 / 4.
Proof.
  destruct (small_version_of_image_2d (slice_at flat_image 0) 4 false)
    as (small & Hres & Hrows & Hcols & _); [simpl; lia..|].
  exists small. by repeat split.
Defined.

(** X21: For a stack, generate_small_version_of_image with
    three_dimensions=False crops the slice at index depth // 2 only (and
    raises IndexError on a stack without slices); with
    three_dimensions=True it keeps every slice and crops each in the
    same way.  A shrinking factor of 0 raises ZeroDivisionError. *)
Theorem small_version_of_image_3d (v : Volume) (shrinking_factor : Z) :
  0 <= shape0 v ->
  (1 <= shape0 v ->
   generate_small_version_of_image (Image3 v) shrinking_factor false
   = generate_small_version_of_image
       (Image2 (slice_at v (shape0 v / 2))) shrinking_factor false) /\
  (shape0 v = 0 ->
   generate_small_version_of_image (Image3 v) shrinking_factor false
   = inl StackIndexError) /\
  (shrinking_factor <> 0 ->
   exists small,
     generate_small_version_of_image (Image3 v) shrinking_factor true
     = inr (Image3 small) /\
     shape0 small = shape0 v /\
     forall z, slice_at small z
               = crop2d (slice_at v z) (shape1 v / shrinking_factor)
                        (shape2 v / shrinking_factor)) /\
  (forall image three_dimensions,
     generate_small_version_of_image image 0 three_dimensions
     = inl ZeroDivisionError \/
     generate_small_version_of_image image 0 three_dimensions
     = inl StackIndexError).
Proof.
  intros Hd. repeat split.
  - intros Hd1. unfold generate_small_version_of_image. simpl negb.
    assert (Hw : wrap_index (shape0 v) (shape0 v / 2) = Some (shape0 v / 2)).
    { unfold wrap_index.
      assert (0 <= shape0 v / 2 < shape0 v).
      { split; [apply Z.div_pos; lia|apply Z.div_lt_upper_bound; lia]. }
      destruct (0 <=? shape0 v / 2) eqn:E1; [|apply Z.leb_gt in E1; lia].
      destruct (shape0 v / 2 <? shape0 v) eqn:E2; [done|].
      apply Z.ltb_ge in E2. lia. }
    by rewrite Hw.
  - intros Hd0. unfold generate_small_version_of_image. by rewrite Hd0.
  - intros Hf. unfold generate_small_version_of_image. simpl negb.
    apply Z.eqb_neq in Hf. rewrite Hf.
    eexists. split; [reflexivity|]. split; reflexivity.
  - intros image three_dimensions. unfold generate_small_version_of_image.
    destruct image as [i|w]; [by left|].
    destruct (negb three_dimensions); [|by left].
    destruct (wrap_index _ _); [by left|by right].
Qed.

Lemma small_version_of_image_3d_witness :
  generate_small_version_of_image (Image3 flat_image) 4 false
  = generate_small_version_of_image
      (Image2 (slice_at flat_image (1 / 2))) 4 false.
Proof.
  apply (small_version_of_image_3d flat_image 4); simpl; lia.
Defined.

(** * file_handling_helpers.py *)

Lemma string_app_length (s t : string) :
  String.length (s +:+ t) = (String.length s + String.length t)%nat.
Proof. induction s as [|a s IH]; simpl; [done|]. by rewrite IH. Qed.

Lemma string_app_inj_r (t s1 s2 : string) : s1 +:+ t = s2 +:+ t -> s1 = s2.
Proof.
  revert s2. induction s1 as [|a s1 IH]; intros [|b s2] E.
  - done.
  - apply (f_equal String.length) in E.
    rewrite !string_app_length in E. simpl in E. lia.
  - apply (f_equal String.length) in E.
    rewrite !string_app_length in E. simpl in E. lia.
  - change (String a (s1 +:+ t) = String b (s2 +:+ t)) in E.
    injection E as -> E. f_equal. by apply IH.
Qed.

Lemma version_path_inj (base base_suffix ext : string) (i j : nat) :
  version_path base base_suffix ext i = version_path base base_suffix ext j ->
  i = j.
Proof.
  unfold version_path. intros E.
  apply String.app_inj, String.app_inj, string_app_inj_r in E.
  by apply (inj pretty) in E.
Qed.

Section NextVersion.
Variable fs : gset string.
Variables base base_suffix ext : string.

Local Abbreviation name := (version_path base base_suffix ext).
Local Abbreviation search := (next_version_from fs base base_suffix ext).

Lemma next_version_from_none (fuel i : nat) :
  search fuel i = None ->
  forall j, (i <= j <= i + fuel)%nat -> name j ∈ fs.
Proof.
  revert i. induction fuel as [|fuel IH]; intros i; simpl;
    destruct (bool_decide (name i ∈ fs)) eqn:E; try done;
    apply bool_decide_eq_true in E; intros Hnone j Hj.
  - by replace j with i by lia.
  - destruct (decide (j = i)) as [->|]; [done|].
    apply (IH (S i) Hnone). lia.
Qed.

Lemma next_version_from_some (fuel i : nat) (p : string) :
  search fuel i = Some p ->
  exists k, (i <= k)%nat /\ p = name k /\ (name k ∉ fs) /\
            forall j, (i <= j < k)%nat -> name j ∈ fs.
Proof.
  revert i. induction fuel as [|fuel IH]; intros i; simpl;
    destruct (bool_decide (name i ∈ fs)) eqn:E; try done.
  - apply bool_decide_eq_false in E. intros [= <-].
    exists i. repeat split; auto with lia.
  - apply bool_decide_eq_true in E. intros Hs.
    destruct (IH _ Hs) as (k & Hk & -> & Hfree & Hused).
    exists k. repeat split; auto with lia.
    intros j Hj. destruct (decide (j = i)) as [->|]; [done|].
    apply Hused. lia.
  - apply bool_decide_eq_false in E. intros [= <-].
    exists i. repeat split; auto with lia.
Qed.

(** the names cannot all be taken: there are more of them than files *)
Lemma next_version_from_enough (fuel i : nat) :
  (size fs <= fuel)%nat -> search fuel i <> None.
Proof.
  intros Hfuel Hnone.
  pose proof (next_version_from_none _ _ Hnone) as Hall.
  assert (Hsub : list_to_set (name <$> seq i (S fuel)) ⊆ fs).
  { intros p Hp. apply elem_of_list_to_set, list_elem_of_fmap in Hp
      as (j & -> & Hj%elem_of_seq). apply Hall. lia. }
  apply subseteq_size in Hsub.
  rewrite size_list_to_set, length_fmap, length_seq in Hsub; [lia|].
  apply NoDup_fmap_2_strong; [|apply NoDup_seq].
  intros j1 j2 _ _. apply version_path_inj.
Qed.
End NextVersion.

Lemma next_available_version_free
    (splitext : string -> string * string) (fs : gset string) (fuel : nat)
    (path base_suffix : string) :
  (size fs <= fuel)%nat ->
  exists p,
    get_next_available_version splitext fs fuel path base_suffix = Some p /\
    p ∉ fs.
Proof.
  intros Hfuel. unfold get_next_available_version.
  destruct (splitext path) as [base ext].
  destruct (next_version_from fs base base_suffix ext fuel 2) as [p|] eqn:E.
  - destruct (next_version_from_some _ _ _ _ _ _ _ E)
      as (k & Hk & -> & Hfree & Hused).
    by eexists.
  - by apply next_version_from_enough in E.
Qed.

(** X22: get_next_available_version ends (the file system has finitely many
    paths) and returns the path with the smallest version number, from
    2 on, that does not exist yet: every lower version exists. *)
Theorem next_available_version_is_first_free
    (splitext : string -> string * string) (fs : gset string) (fuel : nat)
    (path base_suffix : string) :
  (size fs <= fuel)%nat ->
  exists k,
    (2 <= k)%nat /\
    get_next_available_version splitext fs fuel path base_suffix
    = Some (version_path (splitext path).1 base_suffix (splitext path).2 k) /\
    (version_path (splitext path).1 base_suffix (splitext path).2 k ∉ fs) /\
    forall j, (2 <= j < k)%nat ->
      version_path (splitext path).1 base_suffix (splitext path).2 j ∈ fs.
Proof.
  intros Hfuel. unfold get_next_available_version.
  destruct (splitext path) as [base ext]. simpl.
  destruct (next_version_from fs base base_suffix ext fuel 2) as [p|] eqn:E.
  - destruct (next_version_from_some _ _ _ _ _ _ _ E)
      as (k & Hk & -> & Hfree & Hused).
    by exists k.
  - by apply next_version_from_enough in E.
Qed.

Lemma next_available_version_is_first_free_witness :
  exists k,
    (2 <= k)%nat /\
    get_next_available_version splitext_tif
      {["out/cells.tif"; "out/cells_v2.tif"]} 2 "out/cells.tif" "_v"
    = Some (version_path "out/cells" "_v" ".tif" k) /\
    version_path "out/cells" "_v" ".tif" k
    ∉ ({["out/cells.tif"; "out/cells_v2.tif"]} : gset string).
Proof.
  destruct (next_available_version_is_first_free splitext_tif
              {["out/cells.tif"; "out/cells_v2.tif"]} 2 "out/cells.tif" "_v")
    as (k & Hk & Hres & Hfree & _).
  { by vm_compute. }
  exists k. by repeat split.
Defined.

(** X23: resolve_output_path_with_user_prompt never hands back an existing
    path unless the user chose Overwrite: a new path is returned as it
    is without a prompt; for an existing path, "Save as new version"
    gives a path that does not exist, "Don't Save" gives None, and
    "Overwrite" gives the path itself. *)
Theorem resolve_output_path_never_clobbers
    (splitext : string -> string * string) (fs : gset string) (fuel : nat)
    (output_path : string) (clicked : button) :
  (size fs <= fuel)%nat ->
  exists r,
    resolve_output_path_with_user_prompt splitext fs fuel output_path clicked
    = Some r /\
    (output_path ∉ fs -> r = Some output_path) /\
    (output_path ∈ fs -> clicked = cancel_button -> r = None) /\
    (output_path ∈ fs -> clicked = overwrite_button ->
     r = Some output_path) /\
    (output_path ∈ fs -> clicked = save_v2_button ->
     exists p, r = Some p /\ p ∉ fs) /\
    (forall p, r = Some p -> p ∈ fs ->
               p = output_path /\ clicked = overwrite_button).
Proof.
  intros Hfuel. unfold resolve_output_path_with_user_prompt.
  destruct (bool_decide (output_path ∈ fs)) eqn:E.
  - apply bool_decide_eq_true in E. destruct clicked.
    + eexists. split; [reflexivity|].
      repeat split; intros; simplify_eq; done.
    + destruct (next_available_version_free splitext fs fuel output_path
                  "_v" Hfuel) as (p & -> & Hp).
      eexists. split; [reflexivity|].
      repeat split; intros; simplify_eq; try done. by exists p.
    + eexists. split; [reflexivity|].
      repeat split; intros; simplify_eq; done.
  - apply bool_decide_eq_false in E.
    eexists. split; [reflexivity|].
    repeat split; intros; simplify_eq; done.
Qed.

Lemma resolve_output_path_never_clobbers_witness :
  exists r,
    resolve_output_path_with_user_prompt splitext_tif
      {["out/cells.tif"; "out/cells_v2.tif"]} 2 "out/cells.tif" save_v2_button
    = Some r /\
    exists p, r = Some p /\
      p ∉ ({["out/cells.tif"; "out/cells_v2.tif"]} : gset string).
Proof.
  destruct (resolve_output_path_never_clobbers splitext_tif
              {["out/cells.tif"; "out/cells_v2.tif"]} 2 "out/cells.tif"
              save_v2_button)
    as (r & Hres & _ & _ & _ & Hnew & _).
  { by vm_compute. }
  exists r. split; [exact Hres|]. apply Hnew; [|done].
  apply elem_of_union_l, elem_of_singleton. reflexivity.
Defined.

(** * e_manual_blob_annotation_gui_tool.py: export_ground_truth *)

Lemma count_label_app (label : string) (l1 l2 : list string) :
  count_label label (l1 ++ l2)
  = (count_label label l1 + count_label label l2)%nat.
Proof. unfold count_label. by rewrite List.filter_app, length_app. Qed.

Lemma count_label_const (label other : string) {A} (l : list A) :
  count_label label (map (fun _ => other) l)
  = if String.eqb label other then length l else 0%nat.
Proof.
  unfold count_label. induction l as [|a l IH]; simpl.
  - by destruct (String.eqb label other).
  - destruct (String.eqb label other); simpl; by rewrite IH.
Qed.

Lemma count_true_insert (l : list bool) (i : nat) :
  l !! i = Some false -> count_true (<[i := true]> l) = S (count_true l).
Proof.
  unfold count_true. revert i.
  induction l as [|b l IH]; intros [|i] Hi; simpl in *; try done.
  - by injection Hi as ->.
  - destruct b; simpl; by rewrite IH.
Qed.

Lemma unmatched_length (current_data : list point3) (used : list bool) :
  length used = length current_data ->
  (length (unmatched current_data used) + count_true used)%nat
  = length current_data.
Proof.
  unfold unmatched, count_true. revert used.
  induction current_data as [|c l IH]; intros [|b used] Hlen; simpl in *;
    try done.
  injection Hlen as Hlen. specialize (IH _ Hlen).
  destruct b; simpl; lia.
Qed.

Lemma find_match_some (orig : point3) (current_data : list point3)
    (used : list bool) (i0 i : nat) :
  find_match orig current_data used i0 = Some i ->
  (i0 <= i < i0 + length current_data)%nat /\
  default false (used !! i) = false /\
  exists curr, current_data !! (i - i0)%nat = Some curr /\
               allclose orig curr = true.
Proof.
  revert i0. induction current_data as [|c l IH]; intros i0; simpl; [done|].
  destruct (negb (default false (used !! i0)) && allclose orig c) eqn:E.
  - intros [= <-]. apply andb_true_iff in E as [Hu Hc].
    apply negb_true_iff in Hu. rewrite Nat.sub_diag.
    repeat split; try lia; [done|]. by exists c.
  - intros Hf. destruct (IH _ Hf) as (Hi & Hu & curr & Hc & Hclose).
    repeat split; try lia; [done|]. exists curr. split; [|done].
    replace (i - i0)%nat with (S (i - S i0)) by lia. done.
Qed.

Ltac count_singletons :=
  repeat match goal with
  | |- context [count_label ?a [?b]] =>
      let v := eval vm_compute in (count_label a [b]) in
      change (count_label a [b]) with v
  end.

Lemma match_original_invariant (current_data : list point3) (n : nat)
    (acc : export_columns) (orig : point3) :
  export_invariant current_data n acc ->
  export_invariant current_data (S n) (match_original current_data acc orig).
Proof.
  intros (Hu & Hl & Ho & Hs & Htp & Hsum & Hfn). unfold match_original.
  destruct (find_match orig current_data (used acc) 0) as [i|] eqn:E.
  - apply find_match_some in E as (Hi & Hfree & _).
    assert (Hlook : used acc !! i = Some false).
    { destruct (lookup_lt_is_Some_2 (used acc) i) as [b Hb]; [lia|].
      rewrite Hb in Hfree. simpl in Hfree. by subst. }
    unfold export_invariant. simpl.
    rewrite length_insert, !length_app, !count_label_app,
      (count_true_insert _ _ Hlook). simpl. count_singletons.
    repeat split; lia.
  - unfold export_invariant. simpl.
    rewrite !length_app, !count_label_app. simpl. count_singletons.
    repeat split; lia.
Qed.

Lemma fold_match_original_invariant (current_data original_data : list point3)
    (n : nat) (acc : export_columns) :
  export_invariant current_data n acc ->
  export_invariant current_data (n + length original_data)
    (fold_left (match_original current_data) original_data acc).
Proof.
  revert n acc. induction original_data as [|o l IH]; intros n acc Hinv; simpl.
  - by rewrite Nat.add_0_r.
  - replace (n + S (length l))%nat with (S n + length l)%nat by lia.
    apply IH. by apply match_original_invariant.
Qed.

Lemma count_true_replicate_false (n : nat) :
  count_true (replicate n false) = 0%nat.
Proof. unfold count_true. induction n; simpl; auto. Qed.

(** X18: The table of export_ground_truth is well formed and accounts for
    every point once: the four columns have the same length; each
    detected point gets one row, true_positive or false_positive; each
    point now in the layer is either matched by one true_positive row or
    added as one false_negative row. *)
Theorem export_ground_truth_counts (original_data current_data : list point3) :
  let g := export_ground_truth original_data current_data in
  let count label := count_label label (gt_label_for_ml g) in
  length (gt_origin g) = length (gt_coords g) /\
  length (gt_status g) = length (gt_coords g) /\
  length (gt_label_for_ml g) = length (gt_coords g) /\
  (count "true_positive" + count "false_positive")%nat
  = length original_data /\
  (count "true_positive" + count "false_negative")%nat
  = length current_data /\
  length (gt_coords g)
  = (length original_data + count "false_negative")%nat.
Proof.
  unfold export_ground_truth.
  set (start := mkExport (replicate (length current_data) false) [] [] []).
  set (acc := fold_left (match_original current_data) original_data start).
  assert (Hstart : export_invariant current_data 0 start).
  { unfold export_invariant, start. simpl.
    rewrite length_replicate, count_true_replicate_false. repeat split. }
  pose proof (fold_match_original_invariant current_data original_data 0
                start Hstart) as (Hu & Hl & Ho & Hs & Htp & Hsum & Hfn).
  fold acc in Hu, Hl, Ho, Hs, Htp, Hsum, Hfn. simpl in *.
  pose proof (unmatched_length current_data (used acc) Hu) as Hun.
  rewrite !length_app, !length_map, !count_label_app, !count_label_const.
  simpl. repeat split; lia.
Qed.

Lemma isclose_refl (a : Q) : isclose a a = true.
Proof.
  unfold isclose. apply Qle_bool_iff.
  setoid_replace (a - a)%Q with 0%Q using relation Qeq by ring.
  pose proof (Qabs_nonneg a) as Hq. change (Qabs 0) with 0%Q.
  revert Hq. generalize (Qabs a). intros q Hq. lra.
Qed.

Lemma allclose_refl (p : point3) : allclose p p = true.
Proof. destruct p as [[z y] x]. simpl. by rewrite !isclose_refl. Qed.

Lemma find_match_self (x : point3) (pre rest : list point3)
    (used : list bool) (i0 : nat) :
  (forall j, (j < length pre)%nat -> used !! (i0 + j)%nat = Some true) ->
  used !! (i0 + length pre)%nat = Some false ->
  find_match x (pre ++ x :: rest) used i0 = Some (i0 + length pre)%nat.
Proof.
  revert i0. induction pre as [|p pre IH]; intros i0 Hpre Hx; simpl.
  - rewrite Nat.add_0_r in *. by rewrite Hx, allclose_refl.
  - specialize (Hpre 0%nat ltac:(simpl; lia)) as H0.
    rewrite Nat.add_0_r in H0. rewrite H0. simpl.
    rewrite IH; [f_equal; lia| |].
    + intros j Hj. replace (S i0 + j)%nat with (i0 + S j)%nat by lia.
      apply Hpre. simpl. lia.
    + by replace (S i0 + length pre)%nat with (i0 + S (length pre))%nat by lia.
Qed.

Lemma fold_match_original_self (pre suf : list point3) (l o s : list string) :
  fold_left (match_original (pre ++ suf)) suf
    (mkExport (replicate (length pre) true ++ replicate (length suf) false)
              l o s)
  = mkExport (replicate (length pre + length suf) true)
             (l ++ replicate (length suf) "true_positive")
             (o ++ replicate (length suf) "detected")
             (s ++ replicate (length suf) "kept").
Proof.
  revert pre l o s. induction suf as [|x suf IH]; intros pre l o s; simpl.
  - by rewrite !app_nil_r, Nat.add_0_r.
  - unfold match_original at 2. simpl used.
    rewrite (find_match_self x pre suf _ 0); cycle 1.
    { intros j Hj. simpl. rewrite lookup_app_l by (by rewrite length_replicate).
      by apply lookup_replicate_2. }
    { simpl. rewrite lookup_app_r by (by rewrite length_replicate).
      by rewrite length_replicate, Nat.sub_diag. }
    simpl.
    replace (<[length pre := true]>
               (replicate (length pre) true ++ false
                :: replicate (length suf) false))
      with (replicate (length (pre ++ [x])) true
            ++ replicate (length suf) false).
    + replace (pre ++ x :: suf) with ((pre ++ [x]) ++ suf)
        by (by rewrite <- app_assoc).
      rewrite IH, length_app, <- !app_assoc. simpl.
      by replace (length pre + 1 + length suf)%nat
        with (length pre + S (length suf))%nat by lia.
    + rewrite length_app. simpl length.
      rewrite replicate_add, <- app_assoc. simpl.
      rewrite insert_app_r_alt by (by rewrite length_replicate).
      by rewrite length_replicate, Nat.sub_diag.
Qed.

Lemma unmatched_all_used (current_data : list point3) :
  unmatched current_data (replicate (length current_data) true) = [].
Proof.
  unfold unmatched. induction current_data as [|c l IH]; simpl; auto.
Qed.

(** X19: Exporting an unedited layer: when the points in the layer are the
    detected points, every row is a true_positive from origin
    "detected" with status "kept", and no row is added. *)
Theorem export_ground_truth_unedited (data : list point3) :
  export_ground_truth data data
  = mkGroundTruth data
      (replicate (length data) "detected")
      (replicate (length data) "kept")
      (replicate (length data) "true_positive").
Proof.
  unfold export_ground_truth.
  pose proof (fold_match_original_self [] data [] [] []) as E.
  simpl in E. rewrite E. simpl.
  rewrite unmatched_all_used. simpl. by rewrite !app_nil_r.
Qed.

(** * d_review_cells_manually_with_gui.py: marking cells *)

Lemma paint_excluded_spec (mask : LabelImage) (index : nat)
    (excluded : list bool) (em : Z -> Z -> bool) (y x : Z) :
  paint_excluded mask index excluded em y x = true <->
  em y x = true \/
  exists k, cell_at mask y x = Z.of_nat (index + k) + 1 /\
            excluded !! k = Some true.
Proof.
  revert index em. induction excluded as [|b l IH]; intros index em; simpl.
  - split; [by left|]. intros [?|(k & _ & Hk)]; [done|].
    by rewrite lookup_nil in Hk.
  - rewrite IH. split.
    + intros [Hem|(k & Hc & Hk)].
      * destruct b; [|by left]. unfold paint_cell in Hem.
        destruct (cell_at mask y x =? Z.of_nat index + 1) eqn:E; [|by left].
        apply Z.eqb_eq in E. right. exists 0%nat.
        rewrite Nat.add_0_r. by split.
      * right. exists (S k). split; [|done]. rewrite Hc. lia.
    + intros [Hem|([|k] & Hc & Hk)].
      * left. destruct b; [|done]. unfold paint_cell.
        by destruct (cell_at mask y x =? _).
      * simpl in Hk. injection Hk as ->. left. unfold paint_cell.
        rewrite Nat.add_0_r in Hc. apply Z.eqb_eq in Hc. by rewrite Hc.
      * right. exists k. split; [|done]. rewrite Hc. lia.
Qed.

Lemma initial_review_state_marks (mask : LabelImage) (excluded : list bool) :
  marks_excluded mask (initial_review_state mask excluded).
Proof.
  intros y x. simpl. rewrite paint_excluded_spec. simpl. split.
  - intros [?|(k & Hc & Hk)]; [done|]. by exists k.
  - intros (k & Hc & Hk). right. by exists k.
Qed.

(** X25: The exclusion mask built when the review starts marks exactly the
    pixels of the cells listed as excluded (cell k is entry k - 1 of the
    list). *)
Theorem initial_review_state_marks_excluded (mask : LabelImage)
    (excluded : list bool) :
  marks_excluded mask (initial_review_state mask excluded).
Proof. apply initial_review_state_marks. Qed.

Lemma update_cell_marks (mask : LabelImage) (idx : nat) (l : list bool)
    (em : Z -> Z -> bool) (flag : bool) :
  l !! idx = Some flag ->
  marks_excluded mask (mkReview l em) ->
  marks_excluded mask
    (mkReview (<[idx := negb flag]> l)
       (paint_cell mask (Z.of_nat idx + 1) (negb flag) em)).
Proof.
  intros Hidx Hinv y x. simpl. unfold paint_cell.
  pose proof (lookup_lt_Some _ _ _ Hidx) as Hlt.
  destruct (cell_at mask y x =? Z.of_nat idx + 1) eqn:E.
  - apply Z.eqb_eq in E. split.
    + intros Hf. exists idx. split; [done|].
      by rewrite list_lookup_insert_eq, Hf.
    + intros (k & Hc & Hk). assert (k = idx) by lia. subst k.
      rewrite list_lookup_insert_eq in Hk by done. by injection Hk.
  - apply Z.eqb_neq in E. rewrite (Hinv y x). simpl. split.
    + intros (k & Hc & Hk). exists k. split; [done|].
      rewrite list_lookup_insert_ne; [done|]. intros ->. lia.
    + intros (k & Hc & Hk). exists k. split; [done|].
      rewrite list_lookup_insert_ne in Hk; [done|]. intros ->. lia.
Qed.

(** X26: A click of the review tool.  Anything but a left press, a position
    outside the mask, or a background pixel leaves the state as it is.
    A left press on a pixel of cell k flips entry k - 1 of the
    exclusion list and nothing else in it, and the exclusion mask still
    marks exactly the excluded cells; when the list has no entry k - 1
    the callback raises IndexError. *)
Theorem on_mouse_click_toggles (mask : LabelImage) (left_press : bool)
    (cursor_y cursor_x : Q) (st : review_state) :
  let y := np_round cursor_y in
  let x := np_round cursor_x in
  let k := cell_at mask y x in
  let hit := left_press = true /\ 0 <= y < lrows mask /\
             0 <= x < lcols mask /\ 0 < k in
  (~ hit -> on_mouse_click mask left_press cursor_y cursor_x st = Ok st) /\
  (hit -> forall flag, excluded st !! Z.to_nat (k - 1) = Some flag ->
     exists st',
       on_mouse_click mask left_press cursor_y cursor_x st = Ok st' /\
       excluded st' = <[Z.to_nat (k - 1) := negb flag]> (excluded st) /\
       (marks_excluded mask st -> marks_excluded mask st')) /\
  (hit -> excluded st !! Z.to_nat (k - 1) = None ->
     on_mouse_click mask left_press cursor_y cursor_x st = Raise IndexError).
Proof.
  simpl. unfold on_mouse_click.
  set (y := np_round cursor_y). set (x := np_round cursor_x).
  set (k := cell_at mask y x).
  destruct left_press;
    [|split; [done|split; by intros [? _]]].
  destruct ((0 <=? y) && (y <? lrows mask)
            && ((0 <=? x) && (x <? lcols mask))) eqn:Hb.
  2: { apply not_true_iff_false in Hb.
       rewrite !andb_true_iff, !Z.leb_le, !Z.ltb_lt in Hb.
       split; [done|split; intros (_ & ? & ? & _); tauto]. }
  destruct (0 <? k) eqn:Hk.
  2: { apply Z.ltb_ge in Hk.
       split; [done|split; intros (_ & _ & _ & ?); lia]. }
  apply Z.ltb_lt in Hk.
  rewrite !andb_true_iff, !Z.leb_le, !Z.ltb_lt in Hb.
  split; [intros Hn; exfalso; apply Hn; tauto|]. split.
  - intros _ flag Hflag. rewrite Hflag. unfold update_cell. simpl.
    rewrite list_lookup_insert_eq by (by eapply lookup_lt_Some).
    eexists. split; [reflexivity|]. split; [reflexivity|].
    intros Hinv. destruct st as [l em]. simpl in *.
    replace (Z.of_nat (Z.to_nat (k - 1)) + 1) with
      (Z.of_nat (Z.to_nat (k - 1)) + 1) by done.
    by apply update_cell_marks.
  - intros _ Hnone. by rewrite Hnone.
Qed.

Lemma on_mouse_click_toggles_witness :
  exists st',
    on_mouse_click two_cells true 0 1
      (initial_review_state two_cells [false; false]) = Ok st' /\
    excluded st' = [false; true].
Proof.
  destruct (proj1 (proj2 (on_mouse_click_toggles two_cells true 0 1
              (initial_review_state two_cells [false; false]))))
    with (flag := false) as (st' & Hres & Hex & _).
  - vm_compute. intuition (discriminate || reflexivity).
  - reflexivity.
  - exists st'. by split.
Defined.

(** X27: Clicking the same cell twice undoes the first click: the exclusion
    list is as before, and so is every pixel of the exclusion mask,
    provided the mask marked exactly the excluded cells to begin
    with. *)
Theorem on_mouse_click_twice (mask : LabelImage) (cursor_y cursor_x : Q)
    (st st1 st2 : review_state) :
  marks_excluded mask st ->
  on_mouse_click mask true cursor_y cursor_x st = Ok st1 ->
  on_mouse_click mask true cursor_y cursor_x st1 = Ok st2 ->
  excluded st2 = excluded st /\
  forall y x, exclusion_mask st2 y x = exclusion_mask st y x.
Proof.
  intros Hinv. unfold on_mouse_click.
  set (y0 := np_round cursor_y). set (x0 := np_round cursor_x).
  set (k := cell_at mask y0 x0).
  destruct ((0 <=? y0) && (y0 <? lrows mask)
            && ((0 <=? x0) && (x0 <? lcols mask)));
    [|by intros [= <-] [= <-]].
  destruct (0 <? k) eqn:Hk; [|by intros [= <-] [= <-]].
  apply Z.ltb_lt in Hk.
  set (idx := Z.to_nat (k - 1)).
  destruct (excluded st !! idx) as [flag|] eqn:Hflag; [|done].
  pose proof (lookup_lt_Some _ _ _ Hflag) as Hlt.
  unfold update_cell. simpl.
  rewrite list_lookup_insert_eq by done. intros [= <-]. simpl.
  rewrite list_lookup_insert_eq by done. simpl.
  rewrite list_lookup_insert_eq by (by rewrite length_insert).
  intros [= <-]. simpl. split.
  - rewrite list_insert_insert_eq, negb_involutive.
    by apply list_insert_id.
  - intros y x. unfold paint_cell. rewrite negb_involutive.
    destruct (cell_at mask y x =? Z.of_nat idx + 1) eqn:E; [|done].
    apply Z.eqb_eq in E. destruct flag.
    + symmetry. apply Hinv. by exists idx.
    + symmetry. apply not_true_iff_false. intros Ht.
      apply Hinv in Ht as (j & Hc & Hj).
      assert (j = idx) by lia. subst j. congruence.
Qed.

Lemma on_mouse_click_twice_witness :
  marks_excluded two_cells (initial_review_state two_cells [false; false]) /\
  exists st1 st2,
    on_mouse_click two_cells true 0 1
      (initial_review_state two_cells [false; false]) = Ok st1 /\
    on_mouse_click two_cells true 0 1 st1 = Ok st2 /\
    excluded st2 = [false; false].
Proof.
  pose proof (initial_review_state_marks two_cells [false; false]) as Hinv.
  split; [exact Hinv|].
  eexists _, _. split; [reflexivity|]. split; [reflexivity|].
  eapply (proj1 (on_mouse_click_twice two_cells 0 1 _ _ _ Hinv eq_refl
                   eq_refl)).
Defined.

(** * d_review_cells_manually_with_gui.py: the exclusion file *)

Lemma string_app_assoc (a b c : string) : (a +:+ b) +:+ c = a +:+ b +:+ c.
Proof.
  induction a as [|x a IH]; [done|].
  change (String x ((a +:+ b) +:+ c) = String x (a +:+ b +:+ c)).
  by rewrite IH.
Qed.

Lemma string_app_cons (x : ascii) (a b : string) :
  String x a +:+ b = String x (a +:+ b).
Proof. reflexivity. Qed.

Lemma string_app_nil_l (a : string) : "" +:+ a = a.
Proof. reflexivity. Qed.

Lemma has_line_break_app (a b : string) :
  has_line_break (a +:+ b) = has_line_break a || has_line_break b.
Proof.
  induction a as [|x a IH]; [done|].
  rewrite string_app_cons. simpl. by rewrite IH, orb_assoc.
Qed.

(** a stretch without line break followed by a line feed is read as one
    line *)
Lemma read_lines_go_line (line l rest : string) :
  has_line_break l = false ->
  read_lines_go line (l +:+ String line_feed rest)
  = (line +:+ l +:+ String line_feed "") :: read_lines_go "" rest.
Proof.
  revert line. induction l as [|c l IH]; intros line Hl.
  - reflexivity.
  - simpl in Hl. apply orb_false_iff in Hl as [Hc Hl].
    unfold is_line_break in Hc. apply orb_false_iff in Hc as [H10 H13].
    rewrite string_app_cons. cbn [read_lines_go]. rewrite H10, H13.
    rewrite (IH _ Hl). by rewrite string_app_assoc.
Qed.

Lemma pretty_N_char_digit (x : N) :
  all_digits (String (pretty_N_char x) "") = true.
Proof. unfold pretty_N_char. by repeat case_match. Qed.

Lemma pretty_N_go_digits (x : N) (s : string) :
  all_digits s = true -> s <> "" ->
  all_digits (pretty_N_go x s) = true /\ pretty_N_go x s <> "".
Proof.
  revert s. induction (N.lt_wf_0 x) as [x _ IH]; intros s Hs Hne.
  destruct (decide (x = 0)%N) as [->|Hx]; [by rewrite pretty_N_go_0|].
  rewrite pretty_N_go_step by lia. apply IH.
  - apply N.div_lt; lia.
  - pose proof (pretty_N_char_digit (x `mod` 10)) as Hd. simpl in *.
    rewrite andb_true_r in Hd. by rewrite Hd.
  - done.
Qed.

Lemma pretty_N_digits (x : N) :
  all_digits (pretty x) = true /\ pretty x <> "".
Proof.
  unfold pretty, pretty_N. destruct (decide (x = 0)%N) as [->|Hx]; [done|].
  rewrite pretty_N_go_step by lia. apply pretty_N_go_digits; [|done].
  pose proof (pretty_N_char_digit (x `mod` 10)) as Hd. simpl in *. done.
Qed.

Lemma pretty_nat_digits (n : nat) :
  all_digits (pretty n) = true /\ pretty n <> "".
Proof. apply pretty_N_digits. Qed.

Lemma all_digits_no_line_break (s : string) :
  all_digits s = true -> has_line_break s = false.
Proof.
  induction s as [|c s IH]; cbn [all_digits has_line_break]; [done|].
  rewrite !andb_true_iff, !Nat.leb_le. intros [[H1 H2] Hs].
  rewrite (IH Hs), orb_false_r. unfold is_line_break.
  apply orb_false_iff. split; apply Nat.eqb_neq; lia.
Qed.

Lemma pretty_Z_no_line_break (z : Z) : has_line_break (pretty z) = false.
Proof.
  unfold pretty, pretty_Z. destruct z as [|p|p]; simpl.
  - done.
  - apply all_digits_no_line_break, pretty_N_digits.
  - apply all_digits_no_line_break, pretty_N_digits.
Qed.

Lemma read_lines_rows (idx : nat) (excluded : list bool) :
  read_lines_go "" (exclusion_rows idx excluded)
  = imap (fun k val => exclusion_row (idx + k) val) excluded.
Proof.
  revert idx. induction excluded as [|val rest IH]; intros idx; [done|].
  cbn [exclusion_rows imap].
  replace (pretty idx +:+ ", " +:+ py_bool_str val +:+ String line_feed ""
           +:+ exclusion_rows (S idx) rest)
    with ((pretty idx +:+ ", " +:+ py_bool_str val)
          +:+ String line_feed (exclusion_rows (S idx) rest))
    by (by rewrite !string_app_assoc).
  rewrite read_lines_go_line.
  - rewrite IH, string_app_nil_l, Nat.add_0_r. f_equal.
    + unfold exclusion_row. by rewrite !string_app_assoc.
    + apply imap_ext. intros k v _. simpl. f_equal. lia.
  - rewrite !has_line_break_app.
    rewrite (all_digits_no_line_break _ (proj1 (pretty_nat_digits idx))).
    by destruct val.
Qed.

Lemma string_header_line (pre field rest : string) :
  has_line_break pre = false -> has_line_break field = false ->
  read_lines_go "" (pre +:+ field +:+ String line_feed "" +:+ rest)
  = (pre +:+ field +:+ String line_feed "") :: read_lines_go "" rest.
Proof.
  intros Hp Hf.
  replace (pre +:+ field +:+ String line_feed "" +:+ rest)
    with ((pre +:+ field) +:+ String line_feed rest)
    by (by rewrite !string_app_assoc).
  rewrite read_lines_go_line by (by rewrite has_line_break_app, Hp, Hf).
  by rewrite string_app_nil_l, string_app_assoc.
Qed.

Lemma py_rstrip_app (d t : string) :
  py_rstrip t <> "" -> py_rstrip (d +:+ t) = d +:+ py_rstrip t.
Proof.
  intros Ht. induction d as [|c d IH]; [done|].
  rewrite !string_app_cons. cbn [py_rstrip]. rewrite IH.
  destruct (d +:+ py_rstrip t) eqn:E; [|done].
  destruct d; [|done]. by rewrite string_app_nil_l in E.
Qed.

Lemma py_lower_app (a b : string) :
  py_lower (a +:+ b) = py_lower a +:+ py_lower b.
Proof.
  induction a as [|c a IH]; [done|].
  rewrite string_app_cons. simpl. by rewrite IH.
Qed.

Lemma py_endswith_app (a b suffix : string) :
  py_endswith b suffix = true -> py_endswith (a +:+ b) suffix = true.
Proof.
  intros Hb. induction a as [|c a IH]; [done|].
  rewrite string_app_cons. cbn [py_endswith]. rewrite IH. apply orb_true_r.
Qed.

Lemma py_endswith_longer (a b suffix : string) :
  py_endswith b suffix = false ->
  (String.length suffix < String.length b)%nat ->
  py_endswith (a +:+ b) suffix = false.
Proof.
  intros Hb Hlen. induction a as [|c a IH]; [done|].
  rewrite string_app_cons. cbn [py_endswith]. rewrite IH, orb_false_r.
  apply String.eqb_neq. intros E. apply (f_equal String.length) in E.
  simpl in E. rewrite string_app_length in E. lia.
Qed.

(** a data row is not a comment, and is read back as its value *)
Lemma exclusion_row_parsed (idx : nat) (val : bool) :
  startswith_hash (exclusion_row idx val) = false /\
  py_endswith (py_lower (py_strip (exclusion_row idx val))) "true" = val.
Proof.
  unfold exclusion_row.
  destruct (pretty_nat_digits idx) as [Hd Hne].
  destruct (pretty idx) as [|c d] eqn:E; [done|].
  cbn [all_digits] in Hd. rewrite !andb_true_iff, !Nat.leb_le in Hd.
  destruct Hd as [[H48 H57] Hd]. split.
  - rewrite string_app_cons. cbn [startswith_hash]. apply Nat.eqb_neq. lia.
  - assert (Hsp : is_py_space c = false).
    { unfold is_py_space. cbv zeta.
      rewrite !orb_false_iff, !andb_false_iff, !Nat.leb_gt, !Nat.eqb_neq.
      lia. }
    unfold py_strip. rewrite string_app_cons. cbn [py_lstrip]. rewrite Hsp.
    rewrite <- string_app_cons.
    replace (String c d +:+ ", " +:+ py_bool_str val +:+ String line_feed "")
      with (String c d +:+ (", " +:+ py_bool_str val +:+ String line_feed ""))
      by done.
    destruct val.
    + rewrite py_rstrip_app by (vm_compute; discriminate).
      rewrite py_lower_app. by apply py_endswith_app.
    + rewrite py_rstrip_app by (vm_compute; discriminate).
      rewrite py_lower_app. apply py_endswith_longer; [done|].
      vm_compute. lia.
Qed.

Lemma load_rows (idx : nat) (excluded : list bool) :
  map (fun line => py_endswith (py_lower (py_strip line)) "true")
      (List.filter (fun line => negb (startswith_hash line))
         (imap (fun k val => exclusion_row (idx + k) val) excluded))
  = excluded.
Proof.
  revert idx. induction excluded as [|val rest IH]; intros idx; [done|].
  cbn [imap List.filter].
  destruct (exclusion_row_parsed (idx + 0) val) as [Hh Hv].
  rewrite Hh. simpl negb. cbn [map]. rewrite Hv. f_equal.
  rewrite <- (IH (S idx)) at 2. do 2 f_equal.
  apply imap_ext. intros k v _. simpl. f_equal. lia.
Qed.

(** X24: Saving and loading the exclusion list is a round trip: what the
    reader of review_cells_with_napari loads from the file that the
    writer has written is the list that was written, as long as the
    file name, the path and the time stamp in the header contain no
    line break. *)
Theorem exclusion_file_round_trip (base_filename excluded_txt_path created
    : string) (n_cells : Z) (excluded : list bool) :
  has_line_break base_filename = false ->
  has_line_break excluded_txt_path = false ->
  has_line_break created = false ->
  load_exclusions
    (write_exclusion_file base_filename excluded_txt_path created n_cells
       excluded)
  = excluded.
Proof.
  intros Hb Hp Hc. unfold load_exclusions, read_lines, write_exclusion_file.
  rewrite string_header_line by done.
  rewrite string_header_line by done.
  rewrite string_header_line by done.
  rewrite string_header_line by (apply pretty_Z_no_line_break || done).
  replace ("# Format: cell_index, excluded" +:+ String line_feed ""
           +:+ exclusion_rows 0 excluded)
    with ("# Format: cell_index, excluded" +:+ "" +:+ String line_feed ""
          +:+ exclusion_rows 0 excluded) by done.
  rewrite string_header_line by done.
  rewrite read_lines_rows.
  cbn [List.filter startswith_hash String.append]. simpl negb. cbv iota.
  apply load_rows.
Qed.

Lemma exclusion_file_round_trip_witness :
  load_exclusions
    (write_exclusion_file "cells" "out/cells_cell_review_exclusion.txt"
       "2024-05-01 12:00:00" 3 [false; true; false])
  = [false; true; false].
Proof.
  apply exclusion_file_round_trip; reflexivity.
Defined.

(** * BridgeSuppressor: order of the output *)

(** X8: Whenever suppress_blobs_by_bridge_intensity returns, its output is
    a subsequence of the input sorted by descending intensity: the
    records are in descending order of intensity (NaN last), not in
    input order. *)
Theorem bridge_output_descending (srt : ArgSort)
    (line_nd : point -> point -> list point) (blobs : list blob)
    (image : Volume) (radius_xy z_window dip_threshold : Q)
    (out : list blob) :
  suppress_blobs_by_bridge_intensity line_nd blobs image radius_xy z_window
    dip_threshold = Ok out ->
  out `sublist_of` sort_by_intensity blobs /\ StronglySorted descending out.
Proof.
  intros Hout.
  pose proof (suppress_bridge_sublist _ _ _ _ _ _ _ Hout) as Hsub.
  split; [exact Hsub|].
  eapply StronglySorted_sublist; [exact Hsub|].
  apply sort_by_intensity_descending.
Qed.

Lemma bridge_output_descending_witness :
  @suppress_blobs_by_bridge_intensity stable_sort line_nd_skimage
    [peak_b; peak_a] bridge_image 20 4 (1 # 2) = Ok [peak_a; peak_b] /\
  StronglySorted descending [peak_a; peak_b].
Proof.
  assert (Hout : @suppress_blobs_by_bridge_intensity stable_sort
                   line_nd_skimage [peak_b; peak_a] bridge_image 20 4 (1 # 2)
                 = Ok [peak_a; peak_b]) by reflexivity.
  split; [exact Hout|].
  exact (proj2 (bridge_output_descending stable_sort line_nd_skimage
                  [peak_b; peak_a] bridge_image 20 4 (1 # 2) _ Hout)).
Defined.
